(** * SERP clustering: a shallow embedding of [src/cluster.ts]

    The development follows the module top to bottom: the loader
    ([loadSerpData]), the overlap engine ([combinations],
    [calculateUrlOverlap]), the greedy cluster builder ([clusterKeywords]),
    slug generation ([generateSlug]) and the part of [saveOverlapMatrix]
    that recovers the two keywords from a matrix key.

    Modelling conventions.
    - A JavaScript string is a [list ascii]: one [ascii] per UTF-16 code
      unit, restricted to code units below 256.  On that range
      [toLowerCase], [trim] and the regular expressions of the module are
      tabulated exactly.
    - A JavaScript [Map] is an insertion-ordered association list
      ([JsMap]); [Map_set] overwrites in place or appends, as [Map.set]
      does.  A JavaScript [Set] is an insertion-ordered duplicate-free list
      ([JsSet]).
    - The value [undefined], which array destructuring can bind, is [None]
      in the type [member] of cluster elements.
    - [count] is a [nat], the threshold [minOverlap] an integer ([Z]), the
      overlap score an exact rational ([Q]): the IEEE quotient the program
      computes is the correctly rounded value of that rational.
    - File access and CSV syntax stay outside: [loadSerpData] starts from
      the records the CSV parser returns, [saveOverlapMatrix] ends with
      the values it hands to the CSV writer. *)

From Stdlib Require Import ZArith QArith Lia Ascii String.
From stdpp Require Import base list sorting.

Local Open Scope list_scope.
#[local] Set Warnings "-clear-no-such-hyp".

(** ** JavaScript strings *)

Abbreviation jsstring := (list ascii).

(** String literals of the examples. *)
Definition str (s : string) : jsstring := list_ascii_of_string s.

Global Instance ascii_eq_dec : EqDecision ascii := ascii_dec.

Definition code (c : ascii) : N := N_of_ascii c.

Definition in_range (lo hi : N) (c : ascii) : bool :=
  (lo <=? code c)%N && (code c <=? hi)%N.

(** [WhiteSpace] and [LineTerminator] code units below 256: TAB, LF, VT,
    FF, CR, SP and NBSP.  These are what [String.prototype.trim] strips and
    what [parseInt] skips. *)
Definition isWhiteSpace (c : ascii) : bool :=
  in_range 9 13 c || (code c =? 32)%N || (code c =? 160)%N.

Definition isDigit (c : ascii) : bool := in_range 48 57 c.

Fixpoint takeWhile {A} (p : A → bool) (l : list A) : list A :=
  match l with
  | [] => []
  | x :: l' => if p x then x :: takeWhile p l' else []
  end.

Fixpoint dropWhile {A} (p : A → bool) (l : list A) : list A :=
  match l with
  | [] => []
  | x :: l' => if p x then dropWhile p l' else l
  end.

Definition trimStart (s : jsstring) : jsstring := dropWhile isWhiteSpace s.

Definition trimEnd (s : jsstring) : jsstring :=
  reverse (dropWhile isWhiteSpace (reverse s)).

(** [String.prototype.trim]. *)
Definition trim (s : jsstring) : jsstring := trimEnd (trimStart s).

Definition digitValue (c : ascii) : Z := Z.of_N (code c) - 48.

(** Value of a run of decimal digits, most significant first. *)
Definition digitsValue (ds : jsstring) : Z :=
  fold_left (λ acc c, 10 * acc + digitValue c)%Z ds 0%Z.

(** [parseInt(s, 10)]: skip leading white space, read an optional sign,
    then the longest run of decimal digits; [None] is [NaN] (no digit).
    The program only compares the result with 10, for which the exact
    integer and its nearest double agree. *)
Definition parseInt (s : jsstring) : option Z :=
  let s1 := trimStart s in
  let '(sign, s2) :=
    match s1 with
    | c :: r =>
        if decide (c = "-"%char) then ((-1)%Z, r)
        else if decide (c = "+"%char) then (1%Z, r)
        else (1%Z, s1)
    | [] => (1%Z, s1)
    end in
  match takeWhile isDigit s2 with
  | [] => None
  | ds => Some (sign * digitsValue ds)%Z
  end.

(** [String.prototype.toLowerCase] on code units below 256: A-Z and the
    Latin-1 capitals (all of 192-222 but the multiplication sign 215) move
    up by 32, every other code unit is unchanged. *)
Definition lowerChar (c : ascii) : ascii :=
  if in_range 65 90 c || (in_range 192 222 c && negb (code c =? 215)%N)
  then ascii_of_N (code c + 32)
  else c.

Definition toLowerCase (s : jsstring) : jsstring := lowerChar <$> s.

(** [s.split(sep)] for a one-character separator: never empty, and an
    empty piece for every leading, trailing or doubled separator. *)
Fixpoint split (sep : ascii) (s : jsstring) : list jsstring :=
  match s with
  | [] => [[]]
  | c :: s' =>
      if decide (c = sep) then [] :: split sep s'
      else match split sep s' with
           | [] => [[c]]
           | w :: ws => (c :: w) :: ws
           end
  end.

(** [pieces.join(sep)]. *)
Fixpoint join (sep : jsstring) (pieces : list jsstring) : jsstring :=
  match pieces with
  | [] => []
  | [p] => p
  | p :: ps => p ++ sep ++ join sep ps
  end.

(** ** JavaScript [Set]: insertion order, no duplicates *)

Section JsSet.
Context {A : Type} `{EqDecision A}.

Definition JsSet := list A.

Definition Set_has (s : JsSet) (x : A) : bool := bool_decide (x ∈ s).

Definition Set_add (s : JsSet) (x : A) : JsSet :=
  if Set_has s x then s else s ++ [x].

(** [new Set(iterable)]. *)
Definition newSet (l : list A) : JsSet := fold_left Set_add l [].

Definition Set_size (s : JsSet) : nat := length s.
End JsSet.
Global Arguments JsSet : clear implicits.

(** ** JavaScript [Map] with string keys: insertion order, unique keys *)

Section JsMap.
Context {V : Type}.

Definition JsMap := list (jsstring * V).

Definition Map_keys (m : JsMap) : list jsstring := fst <$> m.

Definition Map_entries (m : JsMap) : list (jsstring * V) := m.

Fixpoint Map_get (m : JsMap) (k : jsstring) : option V :=
  match m with
  | [] => None
  | (k', v) :: m' => if decide (k' = k) then Some v else Map_get m' k
  end.

Definition Map_has (m : JsMap) (k : jsstring) : bool :=
  bool_decide (k ∈ Map_keys m).

(** [m.set(k, v)]: an existing key keeps its place and takes the new
    value, a new key goes last. *)
Fixpoint Map_set (m : JsMap) (k : jsstring) (v : V) : JsMap :=
  match m with
  | [] => [(k, v)]
  | (k', v') :: m' =>
      if decide (k' = k) then (k', v) :: m' else (k', v') :: Map_set m' k v
  end.

Definition Map_size (m : JsMap) : nat := length m.
End JsMap.
Global Arguments JsMap : clear implicits.

(** ** Loader *)

(** A parsed record, with the three columns the loader reads. *)
Record Row := mkRow { keyword : jsstring; position : jsstring; url : jsstring }.

Abbreviation SerpData := (JsMap (list jsstring)).

(** [parseInt(row.position, 10) || 0]: [NaN] and [0] are falsy. *)
Definition positionOf (row : Row) : Z :=
  match parseInt (position row) with
  | Some n => if (n =? 0)%Z then 0%Z else n
  | None => 0%Z
  end.

(** [serpData.get(keyword)!.push(url)]: the array stored under the key is
    extended in place.  The loop only calls it on a key it has just made
    sure is present. *)
Fixpoint Map_push (m : SerpData) (k : jsstring) (u : jsstring) : SerpData :=
  match m with
  | [] => []
  | (k', us) :: m' =>
      if decide (k' = k) then (k', us ++ [u]) :: m' else (k', us) :: Map_push m' k u
  end.

(** One iteration of the loop over the parsed records. *)
Definition loadRow (serpData : SerpData) (row : Row) : SerpData :=
  let keyword := trim (keyword row) in
  let url := trim (url row) in
  let position := positionOf row in
  if (position <=? 10)%Z then
    let serpData :=
      if negb (Map_has serpData keyword) then Map_set serpData keyword []
      else serpData in
    Map_push serpData keyword url
  else serpData.

(** [loadSerpData], from the records [csv-parse] returns for the file. *)
Definition loadSerpData (records : list Row) : SerpData :=
  fold_left loadRow records [].

(** ** Overlap engine *)

(** The generator [combinations]: the pairs [(items[i], items[j])], [i < j],
    in the order the two nested loops yield them. *)
Fixpoint combinations {T} (items : list T) : list (T * T) :=
  match items with
  | [] => []
  | x :: rest => (pair x <$> rest) ++ combinations rest
  end.

Record OverlapData := mkOverlapData {
  sharedUrls : list jsstring;
  count : nat;
  overlapScore : Q
}.

Abbreviation OverlapMatrix := (JsMap OverlapData).

(** The template literal [`${kw1}|${kw2}`]. *)
Definition pairKey (kw1 kw2 : jsstring) : jsstring := kw1 ++ ["|"%char] ++ kw2.

(** [new Set(serpData.get(kw)!)]; the non-null assertion has no run-time
    effect and [new Set(undefined)] is empty. *)
Definition urlSet (serpData : SerpData) (kw : jsstring) : JsSet jsstring :=
  newSet (default [] (Map_get serpData kw)).

(** Body of the loop over the pairs.  The division is only reached with a
    positive [sharedCount], hence with two non-empty sets. *)
Definition overlapPair (serpData : SerpData) (overlapMatrix : OverlapMatrix)
    (p : jsstring * jsstring) : OverlapMatrix :=
  let '(kw1, kw2) := p in
  let urls1 := urlSet serpData kw1 in
  let urls2 := urlSet serpData kw2 in
  let shared := filter (λ url, Set_has urls2 url) urls1 in
  let sharedCount := length shared in
  if (0 <? sharedCount)%nat then
    Map_set overlapMatrix (pairKey kw1 kw2)
      {| sharedUrls := shared;
         count := sharedCount;
         overlapScore :=
           (inject_Z (Z.of_nat sharedCount) /
            inject_Z (Z.of_nat (Nat.min (Set_size urls1) (Set_size urls2))))%Q |}
  else overlapMatrix.

Definition calculateUrlOverlap (serpData : SerpData) : OverlapMatrix :=
  fold_left (overlapPair serpData) (combinations (Map_keys serpData)) [].

(** ** Cluster builder *)

(** An element of a cluster: a string, or [None] for [undefined]. *)
Definition member := option jsstring.

Abbreviation Cluster := (JsSet member).

(** [const [kw1, kw2] = key.split("|")]. *)
Definition splitKey (key : jsstring) : member * member :=
  let parts := split "|"%char key in (parts !! 0%nat, parts !! 1%nat).

(** The comparator [(a, b) => b[1].count - a[1].count]. *)
Definition compareCount (a b : jsstring * OverlapData) : Z :=
  (Z.of_nat (count b.2) - Z.of_nat (count a.2))%Z.

(** [Array.prototype.sort] is stable (ECMAScript 2019); with a consistent
    comparator its result is the one of any stable sort, here insertion
    from the right: an element goes in front of the first one it does not
    compare greater than. *)
Fixpoint insertSorted {A} (cmp : A → A → Z) (x : A) (l : list A) : list A :=
  match l with
  | [] => [x]
  | y :: l' => if (cmp x y <=? 0)%Z then x :: l else y :: insertSorted cmp x l'
  end.

Definition sortBy {A} (cmp : A → A → Z) (l : list A) : list A :=
  foldr (insertSorted cmp) [] l.

Record GreedyState := mkGreedyState {
  clusters : list Cluster;
  assigned : JsSet member
}.

(** The inner scan: the first index [i] with
    [clusters[i].has(kw1) || clusters[i].has(kw2)]; [None] is [-1]. *)
Definition findClusterIdx (clusters : list Cluster) (kw1 kw2 : member) : option nat :=
  fst <$> list_find (λ c : Cluster, Set_has c kw1 || Set_has c kw2) clusters.

(** What the loop body does with one qualifying pair. *)
Definition joinPair (st : GreedyState) (kw1 kw2 : member) : GreedyState :=
  {| clusters :=
       match findClusterIdx (clusters st) kw1 kw2 with
       | Some clusterIdx =>
           alter (λ c, Set_add (Set_add c kw1) kw2) clusterIdx (clusters st)
       | None => clusters st ++ [newSet [kw1; kw2]]
       end;
     assigned := Set_add (Set_add (assigned st) kw1) kw2 |}.

(** The loop over [sortedPairs], with its [break]. *)
Fixpoint greedyLoop (minOverlap : Z) (sortedPairs : list (jsstring * OverlapData))
    (st : GreedyState) : GreedyState :=
  match sortedPairs with
  | [] => st
  | (key, data) :: rest =>
      if (Z.of_nat (count data) <? minOverlap)%Z then st
      else
        let '(kw1, kw2) := splitKey key in
        greedyLoop minOverlap rest (joinPair st kw1 kw2)
  end.

Definition initialState : GreedyState := {| clusters := []; assigned := [] |}.

(** The state after the greedy pass. *)
Definition greedyPass (overlapMatrix : OverlapMatrix) (minOverlap : Z) : GreedyState :=
  greedyLoop minOverlap (sortBy compareCount (Map_entries overlapMatrix)) initialState.

(** Body of the final loop over [keywords]. *)
Definition addSingleton (assigned : JsSet member) (clusters : list Cluster)
    (kw : jsstring) : list Cluster :=
  if negb (Set_has assigned (Some kw)) then clusters ++ [newSet [Some kw]]
  else clusters.

Definition clusterKeywords (serpData : SerpData) (overlapMatrix : OverlapMatrix)
    (minOverlap : Z) : list Cluster :=
  let keywords := Map_keys serpData in
  let st := greedyPass overlapMatrix minOverlap in
  fold_left (addSingleton (assigned st)) keywords (clusters st).

(** The default value of the third parameter, and the call that omits it. *)
Definition defaultMinOverlap : Z := 3.

Definition clusterKeywordsDefault (serpData : SerpData)
    (overlapMatrix : OverlapMatrix) : list Cluster :=
  clusterKeywords serpData overlapMatrix defaultMinOverlap.

(** ** Slug generation *)

(** [slug.replace(/ /g, "-")]. *)
Definition replaceSpaces (s : jsstring) : jsstring :=
  (λ c, if decide (c = " "%char) then "-"%char else c) <$> s.

(** The class [[a-z0-9-]]. *)
Definition isSlugChar (c : ascii) : bool :=
  in_range 97 122 c || in_range 48 57 c || (code c =? 45)%N.

(** Truthiness of a string: [(s) => s]. *)
Definition nonEmpty (s : jsstring) : bool :=
  match s with [] => false | _ => true end.

Definition generateSlug (text : jsstring) : jsstring :=
  let slug := toLowerCase text in
  let slug := replaceSpaces slug in
  let slug := filter (λ c, isSlugChar c) slug in
  let slug := join ["-"%char] (filter (λ s, nonEmpty s) (split "-"%char slug)) in
  take 60 slug.

(** ** Overlap matrix rows *)

(** The values [saveOverlapMatrix] hands to the CSV writer for one entry,
    before escaping and number formatting. *)
Record OverlapRow := mkOverlapRow {
  keyword1 : member;
  keyword2 : member;
  shared_urls : jsstring;
  overlap_count : nat;
  overlap_score : Q
}.

Definition overlapRow (entry : jsstring * OverlapData) : OverlapRow :=
  let '(key, data) := entry in
  let '(kw1, kw2) := splitKey key in
  {| keyword1 := kw1;
     keyword2 := kw2;
     shared_urls := join (str ", ") (take 3 (sharedUrls data));
     overlap_count := count data;
     overlap_score := overlapScore data |}.

Definition saveOverlapMatrix (overlapMatrix : OverlapMatrix) : list OverlapRow :=
  overlapRow <$> Map_entries overlapMatrix.

(** ** Cluster records *)

(** The order [<] of JavaScript strings: by code units, a proper prefix
    first. *)
Fixpoint strLt (a b : jsstring) : bool :=
  match a, b with
  | _, [] => false
  | [], _ :: _ => true
  | x :: a', y :: b' =>
      if (code x <? code y)%N then true
      else if (code y <? code x)%N then false
      else strLt a' b'
  end.

(** The comparison [Array.prototype.sort] makes when it is given no
    comparator: [undefined] goes last, strings go by [<]. *)
Definition sortCompare (x y : member) : Z :=
  match x, y with
  | None, None => 0
  | None, Some _ => 1
  | Some _, None => -1
  | Some a, Some b => if strLt a b then -1 else if strLt b a then 1 else 0
  end.

(** How [Array.prototype.join] prints an element: [undefined] as the empty
    string. *)
Definition memberText (kw : member) : jsstring := default [] kw.

(** [new Set(serpData.get(kw)!)] for an element of a cluster; the map has
    no entry for [undefined]. *)
Definition memberUrls (serpData : SerpData) (kw : member) : JsSet jsstring :=
  newSet (default [] (kw ≫= Map_get serpData)).

(** Body of the loop over [clusterList.slice(1)]. *)
Definition intersectWith (serpData : SerpData) (sharedUrls : JsSet jsstring)
    (kw : member) : JsSet jsstring :=
  let kwUrls := memberUrls serpData kw in
  newSet (filter (λ url, Set_has kwUrls url) sharedUrls).

(** The URLs common to the whole cluster, from its sorted list:
    [clusterList[0]] is [undefined] when the list is empty. *)
Definition sharedUrlsOf (serpData : SerpData) (clusterList : list member) :
    JsSet jsstring :=
  let primaryKw : member := default None (clusterList !! 0%nat) in
  fold_left (intersectWith serpData) (drop 1 clusterList)
    (memberUrls serpData primaryKw).

Module Output.
Record t := mk {
  cluster_id : nat;
  primary_keyword : jsstring;
  cluster_keywords : jsstring;
  keyword_count : nat;
  shared_urls : jsstring;
  shared_url_count : nat;
  recommended_slug : jsstring
}.
End Output.

(** One iteration of the loop of [createClusterOutput].  [None] stands for
    the [TypeError] that [generateSlug(primaryKw)] raises when [primaryKw]
    is [undefined]. *)
Definition clusterRecord (serpData : SerpData) (i : nat) (cluster : Cluster) :
    option Output.t :=
  let clusterList := sortBy sortCompare cluster in
  let primaryKw : member := default None (clusterList !! 0%nat) in
  let sharedUrls := sharedUrlsOf serpData clusterList in
  match primaryKw with
  | Some text =>
      Some {| Output.cluster_id := i + 1;
              Output.primary_keyword := text;
              Output.cluster_keywords := join (str ", ") (memberText <$> clusterList);
              Output.keyword_count := length clusterList;
              Output.shared_urls := join (str ", ") (take 3 sharedUrls);
              Output.shared_url_count := Set_size sharedUrls;
              Output.recommended_slug := generateSlug text |}
  | None => None
  end.

Fixpoint createClusterOutputFrom (i : nat) (clusters : list Cluster)
    (serpData : SerpData) : option (list Output.t) :=
  match clusters with
  | [] => Some []
  | cluster :: rest =>
      match clusterRecord serpData i cluster with
      | Some record => cons record <$> createClusterOutputFrom (S i) rest serpData
      | None => None
      end
  end.

(** [createClusterOutput]; [None] when an iteration raises. *)
Definition createClusterOutput (clusters : list Cluster) (serpData : SerpData) :
    option (list Output.t) :=
  createClusterOutputFrom 0 clusters serpData.

(** ** CSV output *)

Definition dquote : ascii := ascii_of_N 34.
Definition newline : ascii := ascii_of_N 10.

(** A value handed to [escapeCSV]: a string or a count. *)
Inductive csvValue :=
  | CsvString (s : jsstring)
  | CsvNumber (n : nat).

Fixpoint uintDigits (d : Decimal.uint) : jsstring :=
  match d with
  | Decimal.Nil => []
  | Decimal.D0 d => "0"%char :: uintDigits d
  | Decimal.D1 d => "1"%char :: uintDigits d
  | Decimal.D2 d => "2"%char :: uintDigits d
  | Decimal.D3 d => "3"%char :: uintDigits d
  | Decimal.D4 d => "4"%char :: uintDigits d
  | Decimal.D5 d => "5"%char :: uintDigits d
  | Decimal.D6 d => "6"%char :: uintDigits d
  | Decimal.D7 d => "7"%char :: uintDigits d
  | Decimal.D8 d => "8"%char :: uintDigits d
  | Decimal.D9 d => "9"%char :: uintDigits d
  end.

(** [String(n)] for a count: its decimal digits (the counts of the module
    stay far below the size where a number prints with an exponent). *)
Definition numberToString (n : nat) : jsstring := uintDigits (Nat.to_uint n).

(** [String(value)]. *)
Definition toString (value : csvValue) : jsstring :=
  match value with
  | CsvString s => s
  | CsvNumber n => numberToString n
  end.

(** The [replace] of [escapeCSV]: every double quote becomes two. *)
Definition doubleQuotes (s : jsstring) : jsstring :=
  s ≫= (λ c, if decide (c = dquote) then [dquote; dquote] else [c]).

Definition escapeCSV (value : csvValue) : jsstring :=
  let str := toString value in
  if bool_decide (","%char ∈ str) || bool_decide (dquote ∈ str)
     || bool_decide (newline ∈ str)
  then [dquote] ++ doubleQuotes str ++ [dquote]
  else str.

(** The columns of the clusters file. *)
Definition fieldnames : list jsstring :=
  str <$> [ "cluster_id"; "primary_keyword"; "cluster_keywords"; "keyword_count";
            "shared_urls"; "shared_url_count"; "recommended_slug" ]%string.

(** [fieldnames.map((field) => row[field])]. *)
Definition fieldValues (row : Output.t) : list csvValue :=
  [ CsvNumber (Output.cluster_id row);
    CsvString (Output.primary_keyword row);
    CsvString (Output.cluster_keywords row);
    CsvNumber (Output.keyword_count row);
    CsvString (Output.shared_urls row);
    CsvNumber (Output.shared_url_count row);
    CsvString (Output.recommended_slug row) ].

(** One line of the clusters file. *)
Definition clusterLine (row : Output.t) : jsstring :=
  join [","%char] (escapeCSV <$> fieldValues row).

(** [saveClusters]: the text written to [filepath]. *)
Definition saveClusters (clustersData : list Output.t) : jsstring :=
  let header := join [","%char] fieldnames in
  let rows := clusterLine <$> clustersData in
  join [newline] (header :: rows).

(** The body of the per-character loop [parseCSV] of
    [test/comparison.test.ts] runs on one line, after it has cut the text
    on line breaks: the state is the values read so far, the current value
    and whether a quote is open. *)
Definition parseChar (st : list jsstring * jsstring * bool) (char : ascii) :
    list jsstring * jsstring * bool :=
  let '(values, current, inQuotes) := st in
  if bool_decide (char = dquote) then (values, current, negb inQuotes)
  else if bool_decide (char = ","%char) && negb inQuotes
       then (values ++ [trim current], [], inQuotes)
       else (values, current ++ [char], inQuotes).

(** The values [parseCSV] reads from one line of the text.  The lines are
    the pieces of [split newline]: a line break inside a quoted value cuts
    the value, the loop never sees it. *)
Definition parseLine (line : jsstring) : list jsstring :=
  let '(values, current, _) := fold_left parseChar line ([], [], false) in
  values ++ [trim current].

(** ** The pipeline *)

(** [ClusteringResult]; the two paths of [output_files] are the last two
    fields. *)
Module Result.
Record t := mk {
  success : bool;
  message : jsstring;
  clusters_created : nat;
  output_clusters : jsstring;
  output_overlap : jsstring
}.
End Result.

(** What a run leaves behind: the result it returns, the text of the
    clusters file and the rows of the overlap file. *)
Record Run := mkRun {
  summary : Result.t;
  clustersFile : jsstring;
  overlapFile : list OverlapRow
}.

(** [runClustering], from the records read from [inputFile], each with its
    three columns, and with both files written.  [None] when
    [createClusterOutput] raises, before anything is written.  A file that
    cannot be read or written and a record that lacks a column make the
    source raise too; these runs are outside the model. *)
Definition runClustering (inputFile outputClusters outputOverlap : jsstring)
    (records : list Row) : option Run :=
  let serpData := loadSerpData records in
  let overlapMatrix := calculateUrlOverlap serpData in
  let clusters := clusterKeywords serpData overlapMatrix 3 in
  match createClusterOutput clusters serpData with
  | None => None
  | Some clustersData =>
      let multiKeywordClusters :=
        length (filter (λ c, (1 < Output.keyword_count c)%nat) clustersData) in
      let singleKeywordClusters :=
        length (filter (λ c, Output.keyword_count c = 1%nat) clustersData) in
      let messages :=
        [ str "Loading SERP data from " ++ inputFile ++ str "...";
          str "  Loaded " ++ numberToString (Map_size serpData) ++ str " keywords";
          str "Calculating URL overlap...";
          str "  Found " ++ numberToString (Map_size overlapMatrix)
            ++ str " keyword pairs with overlap";
          str "Clustering keywords (min 3 shared URLs)...";
          str "  Created " ++ numberToString (length clusters) ++ str " clusters";
          str "Generating cluster output...";
          str "Saving clusters to " ++ outputClusters ++ str "...";
          str "Saving overlap matrix to " ++ outputOverlap ++ str "...";
          newline :: str "Clustering complete!";
          str "  Total keywords: " ++ numberToString (Map_size serpData);
          str "  Clusters created: " ++ numberToString (length clusters);
          str "  Multi-keyword clusters: " ++ numberToString multiKeywordClusters;
          str "  Single-keyword clusters: " ++ numberToString singleKeywordClusters ] in
      Some {| summary :=
                {| Result.success := true;
                   Result.message := join [newline] messages;
                   Result.clusters_created := length clusters;
                   Result.output_clusters := outputClusters;
                   Result.output_overlap := outputOverlap |};
              clustersFile := saveClusters clustersData;
              overlapFile := saveOverlapMatrix overlapMatrix |}
  end.

(** ** Worked inputs *)

Module Examples.

Definition u (n : string) : jsstring := str "https://" ++ str n.

(** Keywords A, B, C rank the same URLs, D others. *)
Definition scenario (shared other : list jsstring) : SerpData :=
  [ (str "A", shared); (str "B", shared); (str "C", shared); (str "D", other) ].

Definition abcd : SerpData :=
  scenario (u <$> ["1"; "2"; "3"; "4"; "5"]%string)
           (u <$> ["6"; "7"; "8"; "9"; "10"]%string).

(** A-B and C-D share five URLs each, A-C share four. *)
Definition bridge : SerpData :=
  [ (str "A", u <$> ["1"; "2"; "3"; "4"; "5"; "11"; "12"; "13"; "14"]%string);
    (str "B", u <$> ["1"; "2"; "3"; "4"; "5"]%string);
    (str "C", u <$> ["6"; "7"; "8"; "9"; "10"; "11"; "12"; "13"; "14"]%string);
    (str "D", u <$> ["6"; "7"; "8"; "9"; "10"]%string) ].

(** A keyword that contains the separator. *)
Definition piped : SerpData :=
  [ (str "a|b", u <$> ["1"; "2"; "3"]%string);
    (str "c", u <$> ["1"; "2"; "3"]%string) ].

(** Two keywords with exactly two URLs in common. *)
Definition twoShared : SerpData :=
  [ (str "A", u <$> ["1"; "2"; "3"]%string);
    (str "B", u <$> ["2"; "3"; "4"]%string) ].

(** A keyword whose two halves around the separator are the same. *)
Definition doubled : SerpData :=
  [ (str "x|x", u <$> ["1"; "2"; "3"]%string);
    (str "y", u <$> ["1"; "2"; "3"]%string) ].

(** The record of a cluster of two keywords. *)
Definition bootsRecord : Output.t :=
  {| Output.cluster_id := 1;
     Output.primary_keyword := str "boots";
     Output.cluster_keywords := str "boots, shoes";
     Output.keyword_count := 2;
     Output.shared_urls := str "https://a";
     Output.shared_url_count := 1;
     Output.recommended_slug := str "boots" |}.

(** Fifty-nine letters, a space, one more letter. *)
Definition longKeyword : jsstring := replicate 59 "a"%char ++ str " b".

End Examples.

(** ** Vocabulary of the statements *)

(** A row is kept when its position, read as the program reads it, is at
    most 10. *)
Definition included (row : Row) : Prop := (positionOf row ≤ 10)%Z.

Global Instance included_dec row : Decision (included row).
Proof. unfold included. apply _. Defined.

(** The URLs the kept rows of [records] give for keyword [k], in row order. *)
Definition urlsFor (k : jsstring) (records : list Row) : list jsstring :=
  (λ r, trim (url r)) <$> filter (λ r, included r ∧ trim (keyword r) = k) records.

(** What one entry of the matrix records about the pair it was made for. *)
Definition entryOf (serpData : SerpData) (kw1 kw2 : jsstring)
    (e : jsstring * OverlapData) : Prop :=
  let urls1 := urlSet serpData kw1 in
  let urls2 := urlSet serpData kw2 in
  e.1 = pairKey kw1 kw2 ∧
  sharedUrls e.2 = filter (λ url, url ∈ urls2) urls1 ∧
  count e.2 = length (sharedUrls e.2) ∧
  (0 < count e.2)%nat ∧
  overlapScore e.2 =
    (inject_Z (Z.of_nat (count e.2)) /
     inject_Z (Z.of_nat (Nat.min (Set_size urls1) (Set_size urls2))))%Q.

(** Entries in descending order of count. *)
Definition countGe (a b : jsstring * OverlapData) : Prop := (count b.2 ≤ count a.2)%nat.

(** An entry the loop processes rather than stops at. *)
Definition qualifies (minOverlap : Z) (e : jsstring * OverlapData) : bool :=
  negb (Z.of_nat (count e.2) <? minOverlap)%Z.

(** The loop body, on an entry. *)
Definition joinEntry (st : GreedyState) (e : jsstring * OverlapData) : GreedyState :=
  joinPair st (splitKey e.1).1 (splitKey e.1).2.

(** The entries the greedy pass processes: the sorted ones before the first
    that is below the threshold. *)
Definition processedPairs (overlapMatrix : OverlapMatrix) (minOverlap : Z) :
    list (jsstring * OverlapData) :=
  takeWhile (qualifies minOverlap) (sortBy compareCount (Map_entries overlapMatrix)).

(** [assigned] and the union of the clusters hold the same elements. *)
Definition assignedExact (st : GreedyState) : Prop :=
  ∀ x, x ∈ assigned st ↔ ∃ c, c ∈ clusters st ∧ x ∈ c.

(** The keywords the final loop turns into singleton clusters. *)
Definition unassigned (assigned : JsSet member) (keywords : list jsstring) : list jsstring :=
  filter (λ kw, Some kw ∉ assigned) keywords.

(** In how many clusters an element sits. *)
Definition occurrences (x : member) (cs : list Cluster) : nat :=
  length (filter (λ c : Cluster, x ∈ c) cs).

(** No name is a member of two clusters of the state. *)
Definition clustersDisjoint (st : GreedyState) : Prop :=
  ∀ i j ci cj x,
    clusters st !! i = Some ci → clusters st !! j = Some cj →
    x ∈ ci → x ∈ cj → i = j.

(** The two names of a pair are not found in two different clusters of the
    state: a cluster holding [kw1] and a cluster holding [kw2] are the same
    cluster. *)
Definition namesTogether (st : GreedyState) (kw1 kw2 : member) : Prop :=
  ∀ i j ci cj,
    clusters st !! i = Some ci → clusters st !! j = Some cj →
    kw1 ∈ ci → kw2 ∈ cj → i = j.

(** No pair of the run has its two names in two different clusters at the
    moment the loop body takes it. *)
Fixpoint noBridge (pairs : list (jsstring * OverlapData)) (st : GreedyState) : Prop :=
  match pairs with
  | [] => True
  | e :: rest =>
      namesTogether st (splitKey e.1).1 (splitKey e.1).2
      ∧ noBridge rest (joinEntry st e)
  end.

(** The text before truncation: lowercased, spaces turned into hyphens,
    foreign characters dropped, empty segments between hyphens removed. *)
Definition collapsed (text : jsstring) : jsstring :=
  join ["-"%char]
    (filter (λ s, nonEmpty s)
       (split "-"%char
          (filter (λ c, isSlugChar c) (replaceSpaces (toLowerCase text))))).

(** No hyphen in front when [prev] is set, and no hyphen right after a
    hyphen. *)
Fixpoint hyphensApart (prev : bool) (s : jsstring) : bool :=
  match s with
  | [] => true
  | c :: s' =>
      if decide (c = "-"%char) then negb prev && hyphensApart true s'
      else hyphensApart false s'
  end.

(** The entry of two keywords that rank the same five URLs. *)
Definition fullEntry (shared : list jsstring) : OverlapData :=
  {| sharedUrls := shared; count := 5; overlapScore := (5 # 1) / (5 # 1) |}.

(** The entry the overlap engine computes for a pair of keywords. *)
Definition pairEntry (serpData : SerpData) (kw1 kw2 : jsstring) : OverlapData :=
  let urls1 := urlSet serpData kw1 in
  let urls2 := urlSet serpData kw2 in
  let shared := filter (λ url, Set_has urls2 url) urls1 in
  {| sharedUrls := shared;
     count := length shared;
     overlapScore :=
       (inject_Z (Z.of_nat (length shared)) /
        inject_Z (Z.of_nat (Nat.min (Set_size urls1) (Set_size urls2))))%Q |}.

(** The URLs stored in a map, all keywords together. *)
Definition urlTotal (serpData : SerpData) : nat :=
  sum_list ((λ e, length e.2) <$> Map_entries serpData).

(** The number of URLs two keywords have in common. *)
Definition sharedCount (serpData : SerpData) (kw1 kw2 : jsstring) : nat :=
  length (filter (λ url, url ∈ urlSet serpData kw2) (urlSet serpData kw1)).

(** Each cluster of the greedy pass accounts for two assigned names. *)
Definition twoPerCluster (st : GreedyState) : Prop :=
  assignedExact st ∧ NoDup (assigned st)
  ∧ (2 * length (clusters st) ≤ length (assigned st))%nat.

(** [record] is the record [createClusterOutput] returns at position [j],
    for the cluster [cluster] at that position. *)
Definition recordOf (clusters : list Cluster) (serpData : SerpData) (j : nat)
    (cluster : Cluster) (record : Output.t) : Prop :=
  ∃ out, createClusterOutput clusters serpData = Some out
         ∧ clusters !! j = Some cluster ∧ out !! j = Some record.

(** A text without its double quotes. *)
Definition unquoted (s : jsstring) : jsstring := filter (λ c, c ≠ dquote) s.

(** What the line reader of the tests gives back for a value. *)
Definition readBack (value : csvValue) : jsstring := trim (unquoted (toString value)).

(** No field of the record holds a line break. *)
Definition oneLine (row : Output.t) : Prop :=
  ∀ value, value ∈ fieldValues row → newline ∉ toString value.

(** * Properties *)

(** Closed decidable facts about the worked inputs are settled by
    evaluation. *)
Ltac by_compute := apply (bool_decide_unpack _); vm_compute; exact I.

(** ** Sets and maps *)

Section JsSetFacts.
Context {A : Type} `{EqDecision A}.
Implicit Types (s : JsSet A) (x y : A).

Lemma Set_has_true s x : Set_has s x = true ↔ x ∈ s.
Proof. unfold Set_has. by rewrite bool_decide_eq_true. Qed.

Lemma Set_has_false s x : Set_has s x = false ↔ x ∉ s.
Proof. unfold Set_has. by rewrite bool_decide_eq_false. Qed.

Lemma elem_of_Set_add s x y : y ∈ Set_add s x ↔ y ∈ s ∨ y = x.
Proof.
  unfold Set_add. destruct (Set_has s x) eqn:E.
  - apply Set_has_true in E. naive_solver.
  - rewrite elem_of_app, list_elem_of_singleton. done.
Qed.

Lemma Set_add_subseteq s x : s ⊆ Set_add s x.
Proof. intros y Hy. apply elem_of_Set_add. by left. Qed.

Lemma Set_add_NoDup s x : NoDup s → NoDup (Set_add s x).
Proof.
  intros Hs. unfold Set_add. destruct (Set_has s x) eqn:E; [done|].
  apply Set_has_false in E. apply NoDup_app. split_and!; [done| |apply NoDup_singleton].
  intros y Hy ->%list_elem_of_singleton. done.
Qed.

Lemma elem_of_fold_Set_add (l : list A) s y :
  y ∈ fold_left Set_add l s ↔ y ∈ s ∨ y ∈ l.
Proof.
  revert s. induction l as [|x l IH]; intros s; simpl.
  - rewrite elem_of_nil. naive_solver.
  - rewrite IH, elem_of_Set_add, elem_of_cons. naive_solver.
Qed.

Lemma elem_of_newSet (l : list A) y : y ∈ newSet l ↔ y ∈ l.
Proof.
  unfold newSet. rewrite elem_of_fold_Set_add, elem_of_nil. naive_solver.
Qed.

Lemma fold_Set_add_NoDup (l : list A) s : NoDup s → NoDup (fold_left Set_add l s).
Proof.
  revert s. induction l as [|x l IH]; intros s Hs; simpl; [done|].
  by apply IH, Set_add_NoDup.
Qed.

Lemma newSet_NoDup (l : list A) : NoDup (newSet l).
Proof. apply fold_Set_add_NoDup, NoDup_nil_2. Qed.
End JsSetFacts.

Section JsMapFacts.
Context {V : Type}.
Implicit Types (m : JsMap V) (k : jsstring) (v : V).

Lemma Map_has_true m k : Map_has m k = true ↔ k ∈ Map_keys m.
Proof. unfold Map_has. by rewrite bool_decide_eq_true. Qed.

Lemma Map_get_None m k : Map_get m k = None ↔ k ∉ Map_keys m.
Proof.
  unfold Map_keys. induction m as [|[k' v'] m IH]; simpl.
  - rewrite elem_of_nil. naive_solver.
  - rewrite not_elem_of_cons. destruct (decide (k' = k)); naive_solver.
Qed.

Lemma Map_keys_set m k v :
  Map_keys (Map_set m k v) =
    if decide (k ∈ Map_keys m) then Map_keys m else Map_keys m ++ [k].
Proof.
  unfold Map_keys. induction m as [|[k' v'] m IH].
  - case_decide as Hk; [by apply elem_of_nil in Hk|done].
  - cbn [Map_set]. destruct (decide (k' = k)) as [->|Hne].
    + rewrite decide_True; [done|]. apply elem_of_cons. by left.
    + rewrite !fmap_cons, IH. cbn [fst].
      destruct (decide (k ∈ fst <$> m)) as [Hin|Hout].
      * rewrite decide_True; [done|]. apply elem_of_cons. by right.
      * rewrite decide_False; [done|]. rewrite not_elem_of_cons. naive_solver.
Qed.

Lemma Map_get_set m k v k' :
  Map_get (Map_set m k v) k' = if decide (k = k') then Some v else Map_get m k'.
Proof.
  induction m as [|[k0 v0] m IH]; simpl.
  - done.
  - destruct (decide (k0 = k)) as [->|Hne]; simpl.
    + destruct (decide (k = k')); done.
    + rewrite IH. destruct (decide (k0 = k')) as [->|]; [|done].
      rewrite decide_False; [done|]. congruence.
Qed.

(** Every entry of [m.set(k, v)] is the new one or was there before. *)
Lemma elem_of_Map_set m k v e :
  e ∈ Map_set m k v → e = (k, v) ∨ e ∈ m.
Proof.
  induction m as [|[k0 v0] m IH]; simpl.
  - rewrite list_elem_of_singleton. naive_solver.
  - destruct (decide (k0 = k)) as [->|Hne]; rewrite !elem_of_cons; naive_solver.
Qed.

Lemma Map_set_NoDup m k v : NoDup (Map_keys m) → NoDup (Map_keys (Map_set m k v)).
Proof.
  intros Hm. rewrite Map_keys_set. case_decide; [done|].
  apply NoDup_app. split_and!; [done| |apply NoDup_singleton].
  intros y Hy ->%list_elem_of_singleton. done.
Qed.
End JsMapFacts.

(** ** The greedy step *)

Lemma holds_iff (c : Cluster) (kw1 kw2 : member) :
  Is_true (Set_has c kw1 || Set_has c kw2) ↔ kw1 ∈ c ∨ kw2 ∈ c.
Proof.
  rewrite orb_True, !Is_true_true, !Set_has_true. done.
Qed.

Lemma findClusterIdx_Some (cs : list Cluster) (kw1 kw2 : member) (i : nat) :
  findClusterIdx cs kw1 kw2 = Some i ↔
  ∃ c, cs !! i = Some c ∧ (kw1 ∈ c ∨ kw2 ∈ c) ∧
       ∀ j c', j < i → cs !! j = Some c' → (kw1 ∉ c') ∧ (kw2 ∉ c').
Proof.
  unfold findClusterIdx. split.
  - intros Hf. apply fmap_Some in Hf as [[i' c] [Hf ->]].
    apply list_find_Some in Hf as (Hi & Hc & Hlt). exists c.
    split_and!; [done|by apply holds_iff|].
    intros j c' Hj Hc'. specialize (Hlt j c' Hc' Hj).
    rewrite holds_iff in Hlt. tauto.
  - intros (c & Hi & Hc & Hlt). apply fmap_Some. exists (i, c). split; [|done].
    apply list_find_Some. split_and!; [done|by apply holds_iff|].
    intros j c' Hc' Hj. rewrite holds_iff.
    destruct (Hlt j c' Hj Hc'). tauto.
Qed.

Lemma findClusterIdx_None (cs : list Cluster) (kw1 kw2 : member) :
  findClusterIdx cs kw1 kw2 = None ↔ ∀ c, c ∈ cs → (kw1 ∉ c) ∧ (kw2 ∉ c).
Proof.
  unfold findClusterIdx. rewrite fmap_None, list_find_None, Forall_forall.
  split; intros Hall c Hc; specialize (Hall c Hc); rewrite holds_iff in *; tauto.
Qed.

Lemma elem_of_add_pair (c : Cluster) (kw1 kw2 x : member) :
  x ∈ Set_add (Set_add c kw1) kw2 ↔ x ∈ c ∨ x = kw1 ∨ x = kw2.
Proof. rewrite !elem_of_Set_add. tauto. Qed.

Lemma elem_of_new_pair (kw1 kw2 x : member) :
  x ∈ newSet [kw1; kw2] ↔ x = kw1 ∨ x = kw2.
Proof. rewrite elem_of_newSet, elem_of_cons, list_elem_of_singleton. done. Qed.

(** A step keeps every cluster at its index and only adds members. *)
Lemma joinPair_grows (st : GreedyState) (kw1 kw2 : member) (j : nat) (c : Cluster) :
  clusters st !! j = Some c →
  ∃ c', clusters (joinPair st kw1 kw2) !! j = Some c' ∧ c ⊆ c'.
Proof.
  intros Hj. unfold joinPair. cbn [clusters].
  destruct (findClusterIdx (clusters st) kw1 kw2) as [i|].
  - destruct (decide (i = j)) as [->|Hne].
    + exists (Set_add (Set_add c kw1) kw2). split.
      * by rewrite list_lookup_alter_eq, Hj.
      * intros x Hx. apply elem_of_add_pair. by left.
    + exists c. split; [|done]. by rewrite list_lookup_alter_ne.
  - exists c. split; [|done]. by apply lookup_app_l_Some.
Qed.

Lemma greedyLoop_grows (minOverlap : Z) (pairs : list (jsstring * OverlapData))
    (st : GreedyState) (j : nat) (c : Cluster) :
  clusters st !! j = Some c →
  ∃ c', clusters (greedyLoop minOverlap pairs st) !! j = Some c' ∧ c ⊆ c'.
Proof.
  revert st c. induction pairs as [|[key data] rest IH]; intros st c Hj; cbn [greedyLoop].
  - by exists c.
  - destruct (Z.of_nat (count data) <? minOverlap)%Z; [by exists c|].
    destruct (splitKey key) as [kw1 kw2].
    destruct (joinPair_grows st kw1 kw2 j c Hj) as (c1 & Hc1 & Hsub).
    destruct (IH _ _ Hc1) as (c2 & Hc2 & Hsub2).
    exists c2. split; [done|]. by transitivity c1.
Qed.

(** C2.  A pair whose count reaches the threshold is handed to [joinPair]:
    the clusters are scanned from the first created on, and the first one
    that holds [kw1] or [kw2] receives both keywords, every other cluster
    being left as it is; when no cluster holds either, one new cluster with
    exactly [kw1] and [kw2] is put at the end.  No two clusters are ever
    merged: a step keeps each cluster at its index, and through the rest of
    the loop a cluster only gains members. *)
Theorem joinPair_first_match_or_new (minOverlap : Z) (key : jsstring)
    (data : OverlapData) (rest : list (jsstring * OverlapData)) (st : GreedyState) :
  (minOverlap ≤ Z.of_nat (count data))%Z →
  let kw1 := (splitKey key).1 in
  let kw2 := (splitKey key).2 in
  let st' := joinPair st kw1 kw2 in
  greedyLoop minOverlap ((key, data) :: rest) st = greedyLoop minOverlap rest st'
  ∧ ((∃ i c c', clusters st !! i = Some c ∧ (kw1 ∈ c ∨ kw2 ∈ c)
        ∧ (∀ j d, j < i → clusters st !! j = Some d → (kw1 ∉ d) ∧ (kw2 ∉ d))
        ∧ clusters st' = <[i := c']> (clusters st)
        ∧ (∀ x, x ∈ c' ↔ x ∈ c ∨ x = kw1 ∨ x = kw2))
     ∨ (∃ c', (∀ d, d ∈ clusters st → (kw1 ∉ d) ∧ (kw2 ∉ d))
        ∧ clusters st' = clusters st ++ [c']
        ∧ (∀ x, x ∈ c' ↔ x = kw1 ∨ x = kw2)))
  ∧ (∀ j c, clusters st !! j = Some c →
       ∃ c', clusters st' !! j = Some c' ∧ c ⊆ c')
  ∧ (∀ j c, clusters st' !! j = Some c →
       ∃ c', clusters (greedyLoop minOverlap rest st') !! j = Some c' ∧ c ⊆ c').
Proof.
  intros Hcount kw1 kw2 st'. split_and!.
  - cbn [greedyLoop]. rewrite (proj2 (Z.ltb_ge _ _) Hcount).
    subst st' kw1 kw2. by destruct (splitKey key).
  - subst st'. unfold joinPair. cbn [clusters].
    destruct (findClusterIdx (clusters st) kw1 kw2) as [i|] eqn:Hfind.
    + left. apply findClusterIdx_Some in Hfind as (c & Hi & Hc & Hlt).
      exists i, c, (Set_add (Set_add c kw1) kw2).
      split_and!; [done|done|done| |apply elem_of_add_pair].
      apply list_eq. intros j. destruct (decide (i = j)) as [->|Hne].
      * rewrite list_lookup_alter_eq, Hi. cbn.
        symmetry. apply list_lookup_insert_eq. by eapply lookup_lt_Some.
      * by rewrite list_lookup_alter_ne, list_lookup_insert_ne.
    + right. exists (newSet [kw1; kw2]).
      split_and!; [by apply findClusterIdx_None|done|apply elem_of_new_pair].
  - intros j c. apply joinPair_grows.
  - intros j c. apply greedyLoop_grows.
Qed.

Lemma joinPair_first_match_or_new_witness :
  (3 ≤ Z.of_nat (count (mkOverlapData [] 5 1)))%Z
  ∧ greedyLoop 3 [(str "A|B", mkOverlapData [] 5 1)] initialState =
    greedyLoop 3 [] (joinPair initialState (Some (str "A")) (Some (str "B"))).
Proof.
  assert (3 ≤ Z.of_nat (count (mkOverlapData [] 5 1)))%Z as Hc by (simpl; lia).
  split; [exact Hc|].
  exact (proj1 (joinPair_first_match_or_new 3 (str "A|B") (mkOverlapData [] 5 1)
                  [] initialState Hc)).
Defined.

(** ** Invariants of the greedy pass *)

(** Members of the clusters after a step: the old ones and the pair. *)
Lemma joinPair_members (st : GreedyState) (kw1 kw2 : member) (c : Cluster) (x : member) :
  c ∈ clusters (joinPair st kw1 kw2) → x ∈ c →
  (∃ c0, c0 ∈ clusters st ∧ x ∈ c0) ∨ x = kw1 ∨ x = kw2.
Proof.
  unfold joinPair. cbn [clusters].
  destruct (findClusterIdx (clusters st) kw1 kw2) as [i|].
  - intros Hc Hx. apply list_elem_of_lookup in Hc as [j Hj].
    destruct (decide (i = j)) as [->|Hne].
    + rewrite list_lookup_alter_eq in Hj.
      destruct (clusters st !! j) as [c0|] eqn:Hc0; [|done].
      injection Hj as <-. apply elem_of_add_pair in Hx as [Hx|Hx]; [|by right].
      left. exists c0. split; [|done]. by eapply list_elem_of_lookup_2.
    + rewrite list_lookup_alter_ne in Hj by done.
      left. exists c. split; [|done]. by eapply list_elem_of_lookup_2.
  - intros [Hc| ->%list_elem_of_singleton]%elem_of_app Hx.
    + left. by exists c.
    + right. by apply elem_of_new_pair.
Qed.

(** After a step both keywords of the pair sit in some cluster. *)
Lemma joinPair_covers (st : GreedyState) (kw1 kw2 x : member) :
  x = kw1 ∨ x = kw2 → ∃ c, c ∈ clusters (joinPair st kw1 kw2) ∧ x ∈ c.
Proof.
  intros Hx. unfold joinPair. cbn [clusters].
  destruct (findClusterIdx (clusters st) kw1 kw2) as [i|] eqn:Hfind.
  - apply findClusterIdx_Some in Hfind as (c & Hi & _).
    exists (Set_add (Set_add c kw1) kw2). split.
    + eapply list_elem_of_lookup_2 with (i := i).
      by rewrite list_lookup_alter_eq, Hi.
    + apply elem_of_add_pair. by right.
  - exists (newSet [kw1; kw2]). split.
    + apply elem_of_app. right. by apply list_elem_of_singleton.
    + by apply elem_of_new_pair.
Qed.

Lemma initialState_assignedExact : assignedExact initialState.
Proof.
  intros x. cbn. rewrite elem_of_nil. split; [done|].
  intros (c & Hc & _). by apply elem_of_nil in Hc.
Qed.

Lemma joinPair_assignedExact (st : GreedyState) (kw1 kw2 : member) :
  assignedExact st → assignedExact (joinPair st kw1 kw2).
Proof.
  intros Hst x. split.
  - intros Hx. change (x ∈ Set_add (Set_add (assigned st) kw1) kw2) in Hx.
    apply elem_of_add_pair in Hx as [Hx|Hx]; [|by apply joinPair_covers].
    apply Hst in Hx as (c & Hc & Hx).
    apply list_elem_of_lookup in Hc as [j Hj].
    destruct (joinPair_grows st kw1 kw2 j c Hj) as (c' & Hc' & Hsub).
    exists c'. split; [by eapply list_elem_of_lookup_2|by apply Hsub].
  - intros (c & Hc & Hx).
    change (x ∈ Set_add (Set_add (assigned st) kw1) kw2).
    apply elem_of_add_pair.
    destruct (joinPair_members st kw1 kw2 c x Hc Hx) as [(c0 & Hc0 & Hx0)|Hx']; [|by right].
    left. apply Hst. by exists c0.
Qed.

Lemma greedyLoop_assignedExact (minOverlap : Z) (pairs : list (jsstring * OverlapData))
    (st : GreedyState) :
  assignedExact st → assignedExact (greedyLoop minOverlap pairs st).
Proof.
  revert st. induction pairs as [|[key data] rest IH]; intros st Hst; cbn [greedyLoop].
  - done.
  - destruct (Z.of_nat (count data) <? minOverlap)%Z; [done|].
    destruct (splitKey key) as [kw1 kw2]. by apply IH, joinPair_assignedExact.
Qed.

(** A property of the keywords of every processed pair holds of every
    member of every cluster. *)
Lemma greedyLoop_members (Q : member → Prop) (minOverlap : Z)
    (pairs : list (jsstring * OverlapData)) (st : GreedyState) :
  (∀ c x, c ∈ clusters st → x ∈ c → Q x) →
  (∀ key data, (key, data) ∈ pairs → (minOverlap ≤ Z.of_nat (count data))%Z →
     Q (splitKey key).1 ∧ Q (splitKey key).2) →
  ∀ c x, c ∈ clusters (greedyLoop minOverlap pairs st) → x ∈ c → Q x.
Proof.
  revert st. induction pairs as [|[key data] rest IH]; intros st Hst Hpairs; cbn [greedyLoop].
  - done.
  - destruct (Z.ltb_spec (Z.of_nat (count data)) minOverlap) as [Hlt|Hge]; [done|].
    destruct (Hpairs key data) as [Hq1 Hq2]; [by left|done|].
    destruct (splitKey key) as [kw1 kw2]. cbn [fst snd] in *. apply IH.
    + intros c x Hc Hx.
      destruct (joinPair_members st kw1 kw2 c x Hc Hx) as [(c0 & Hc0 & Hx0)|[->| ->]];
        [by eapply Hst|done|done].
    + intros key' data' Hin. apply Hpairs. by right.
Qed.

(** ** The singleton pass *)

Lemma newSet_singleton (x : member) : newSet [x] = [x].
Proof. reflexivity. Qed.

Lemma fold_addSingleton (assigned : JsSet member) (keywords : list jsstring)
    (cs : list Cluster) :
  fold_left (addSingleton assigned) keywords cs =
  cs ++ ((λ kw, [Some kw]) <$> unassigned assigned keywords).
Proof.
  revert cs. induction keywords as [|kw kws IH]; intros cs; cbn [fold_left].
  - by rewrite app_nil_r.
  - rewrite IH. unfold addSingleton, unassigned.
    destruct (Set_has assigned (Some kw)) eqn:E; cbn [negb].
    + apply Set_has_true in E. rewrite filter_cons_False; [done|]. naive_solver.
    + apply Set_has_false in E. rewrite filter_cons_True by done.
      rewrite fmap_cons, newSet_singleton, <- app_assoc. done.
Qed.

Lemma clusterKeywords_eq (serpData : SerpData) (overlapMatrix : OverlapMatrix)
    (minOverlap : Z) :
  clusterKeywords serpData overlapMatrix minOverlap =
  clusters (greedyPass overlapMatrix minOverlap) ++
  ((λ kw, [Some kw]) <$>
     unassigned (assigned (greedyPass overlapMatrix minOverlap)) (Map_keys serpData)).
Proof. unfold clusterKeywords. apply fold_addSingleton. Qed.

Lemma greedyPass_assignedExact (overlapMatrix : OverlapMatrix) (minOverlap : Z) :
  assignedExact (greedyPass overlapMatrix minOverlap).
Proof. apply greedyLoop_assignedExact, initialState_assignedExact. Qed.

(** No keyword of the map is missing from the result. *)
Lemma clusterKeywords_covers (serpData : SerpData) (overlapMatrix : OverlapMatrix)
    (minOverlap : Z) (kw : jsstring) :
  kw ∈ Map_keys serpData →
  ∃ c, c ∈ clusterKeywords serpData overlapMatrix minOverlap ∧ Some kw ∈ c.
Proof.
  intros Hkw. rewrite clusterKeywords_eq.
  set (st := greedyPass overlapMatrix minOverlap).
  destruct (decide (Some kw ∈ assigned st)) as [Hin|Hout].
  - apply greedyPass_assignedExact in Hin as (c & Hc & Hx).
    exists c. split; [|done]. apply elem_of_app. by left.
  - exists [Some kw]. split; [|by apply list_elem_of_singleton].
    apply elem_of_app. right. apply list_elem_of_fmap. exists kw. split; [done|].
    apply list_elem_of_filter. done.
Qed.

(** ** The overlap engine *)

Lemma elem_of_combinations {T} (items : list T) (a b : T) :
  (a, b) ∈ combinations items → a ∈ items ∧ b ∈ items.
Proof.
  induction items as [|x rest IH]; cbn [combinations].
  - by intros ?%elem_of_nil.
  - intros [Hin|Hin]%elem_of_app.
    + apply list_elem_of_fmap in Hin as (y & [= -> ->] & Hy).
      split; [by left|by right].
    + destruct (IH Hin). split; by right.
Qed.

Lemma combinations_distinct {T} (items : list T) (a b : T) :
  NoDup items → (a, b) ∈ combinations items → a ≠ b.
Proof.
  induction 1 as [|x rest Hx Hnd IH]; cbn [combinations].
  - by intros ?%elem_of_nil.
  - intros [Hin|Hin]%elem_of_app; [|by apply IH].
    apply list_elem_of_fmap in Hin as (y & [= -> ->] & Hy). by intros ->.
Qed.

Lemma filter_Set_has (s l : list jsstring) :
  filter (λ url, Set_has s url) l = filter (λ url, url ∈ s) l.
Proof.
  apply list_filter_iff. intros x. rewrite Is_true_true. apply Set_has_true.
Qed.

Lemma overlapPair_entries (serpData : SerpData) (om : OverlapMatrix)
    (kw1 kw2 : jsstring) (e : jsstring * OverlapData) :
  e ∈ overlapPair serpData om (kw1, kw2) → e ∈ om ∨ entryOf serpData kw1 kw2 e.
Proof.
  unfold overlapPair.
  destruct (Nat.ltb_spec 0
    (length (filter (λ url, Set_has (urlSet serpData kw2) url) (urlSet serpData kw1))))
    as [Hpos|Hzero]; [|by left].
  intros [->|Hin]%elem_of_Map_set; [|by left].
  right. unfold entryOf. cbn. rewrite <- filter_Set_has. done.
Qed.

Lemma fold_overlapPair_entries (serpData : SerpData) (pairs : list (jsstring * jsstring))
    (om : OverlapMatrix) (e : jsstring * OverlapData) :
  e ∈ fold_left (overlapPair serpData) pairs om →
  e ∈ om ∨ ∃ kw1 kw2, (kw1, kw2) ∈ pairs ∧ entryOf serpData kw1 kw2 e.
Proof.
  revert om. induction pairs as [|[kw1 kw2] rest IH]; intros om; cbn [fold_left].
  - by left.
  - intros [Hin|(a & b & Hab & He)]%IH.
    + apply overlapPair_entries in Hin as [Hin|He]; [by left|].
      right. exists kw1, kw2. split; [by left|done].
    + right. exists a, b. split; [by right|done].
Qed.

(** Every entry of the matrix was written for a pair of keywords of the
    map, under their two names joined by the separator. *)
Lemma calculateUrlOverlap_entries (serpData : SerpData) (e : jsstring * OverlapData) :
  e ∈ Map_entries (calculateUrlOverlap serpData) →
  ∃ kw1 kw2, (kw1, kw2) ∈ combinations (Map_keys serpData) ∧ entryOf serpData kw1 kw2 e.
Proof.
  intros [Hin|He]%fold_overlapPair_entries; [by apply elem_of_nil in Hin|done].
Qed.

(** The shared URLs are no more than either side has. *)
Lemma shared_length_le (s1 s2 : list jsstring) :
  NoDup s1 →
  (length (filter (λ url, url ∈ s2) s1) ≤ Nat.min (length s1) (length s2))%nat.
Proof.
  intros Hnd. apply Nat.min_glb.
  - apply length_filter.
  - apply submseteq_length, NoDup_submseteq.
    + by apply NoDup_filter.
    + by intros x [Hx _]%list_elem_of_filter.
Qed.

Lemma score_bounds (n d : nat) :
  (0 < n)%nat → (n ≤ d)%nat →
  (0 < inject_Z (Z.of_nat n) / inject_Z (Z.of_nat d) ∧
   inject_Z (Z.of_nat n) / inject_Z (Z.of_nat d) <= 1)%Q.
Proof.
  intros Hn Hd.
  assert (Hd0 : (0 < inject_Z (Z.of_nat d))%Q).
  { change 0%Q with (inject_Z 0). rewrite <- Zlt_Qlt. lia. }
  split.
  - apply Qlt_shift_div_l; [done|]. rewrite Qmult_0_l.
    change 0%Q with (inject_Z 0). rewrite <- Zlt_Qlt. lia.
  - apply Qle_shift_div_r; [done|]. rewrite Qmult_1_l.
    rewrite <- Zle_Qle. lia.
Qed.

(** ** The loader *)

Lemma Map_get_push (m : SerpData) (k u k' : jsstring) :
  Map_get (Map_push m k u) k' =
  if decide (k = k') then (λ us, us ++ [u]) <$> Map_get m k' else Map_get m k'.
Proof.
  induction m as [|[k0 us] m IH]; cbn [Map_push Map_get].
  - by case_decide.
  - destruct (decide (k0 = k)) as [->|Hne]; cbn [Map_get].
    + destruct (decide (k = k')); done.
    + rewrite IH. destruct (decide (k0 = k')) as [->|]; [|done].
      rewrite decide_False; [done|]. congruence.
Qed.

Lemma Map_keys_push (m : SerpData) (k u : jsstring) :
  Map_keys (Map_push m k u) = Map_keys m.
Proof.
  unfold Map_keys. induction m as [|[k0 us] m IH]; cbn [Map_push]; [done|].
  destruct (decide (k0 = k)); [done|]. by rewrite !fmap_cons, IH.
Qed.

Lemma Map_get_loadRow (m : SerpData) (row : Row) (k : jsstring) :
  Map_get (loadRow m row) k =
  if decide (included row ∧ trim (keyword row) = k)
  then Some (default [] (Map_get m k) ++ [trim (url row)])
  else Map_get m k.
Proof.
  unfold loadRow, included.
  destruct (Z.leb_spec (positionOf row) 10) as [Hle|Hgt].
  - rewrite Map_get_push. destruct (decide (trim (keyword row) = k)) as [<-|Hne].
    + rewrite decide_True by done.
      destruct (Map_has m (trim (keyword row))) eqn:Hhas; cbn [negb].
      * apply Map_has_true in Hhas.
        destruct (Map_get m (trim (keyword row))) eqn:Hget; [done|].
        by apply Map_get_None in Hget.
      * rewrite Map_get_set, decide_True by done.
        assert (Map_get m (trim (keyword row)) = None) as ->; [|done].
        apply Map_get_None. intros Hin%Map_has_true. congruence.
    + rewrite decide_False by tauto.
      destruct (Map_has m (trim (keyword row))); cbn [negb]; [done|].
      by rewrite Map_get_set, decide_False.
  - rewrite decide_False; [done|]. lia.
Qed.

Lemma Map_keys_loadRow (m : SerpData) (row : Row) :
  Map_keys (loadRow m row) =
  if decide (included row) then Set_add (Map_keys m) (trim (keyword row))
  else Map_keys m.
Proof.
  unfold loadRow, included.
  destruct (Z.leb_spec (positionOf row) 10) as [Hle|Hgt].
  - rewrite decide_True by done. rewrite Map_keys_push. unfold Set_add, Set_has.
    destruct (Map_has m (trim (keyword row))) eqn:Hhas; cbn [negb].
    + apply Map_has_true in Hhas. by rewrite bool_decide_eq_true_2.
    + rewrite Map_keys_set.
      assert (trim (keyword row) ∉ Map_keys m) as Hout.
      { intros Hin%Map_has_true. congruence. }
      by rewrite decide_False, bool_decide_eq_false_2.
  - rewrite decide_False; [done|]. lia.
Qed.

Lemma Map_get_fold_loadRow (records : list Row) (m : SerpData) (k : jsstring) :
  Map_get (fold_left loadRow records m) k =
  match urlsFor k records with
  | [] => Map_get m k
  | us => Some (default [] (Map_get m k) ++ us)
  end.
Proof.
  revert m. induction records as [|row rest IH]; intros m; cbn [fold_left].
  - done.
  - rewrite IH, Map_get_loadRow. unfold urlsFor.
    destruct (decide (included row ∧ trim (keyword row) = k)) as [Hin|Hout].
    + rewrite filter_cons_True, fmap_cons by done.
      destruct ((λ r, trim (url r)) <$> filter _ rest) as [|u us]; [done|].
      cbn [from_option id]. by rewrite <- app_assoc.
    + by rewrite filter_cons_False.
Qed.

Lemma Map_keys_fold_loadRow (records : list Row) (m : SerpData) :
  Map_keys (fold_left loadRow records m) =
  fold_left Set_add ((λ r, trim (keyword r)) <$> filter included records) (Map_keys m).
Proof.
  revert m. induction records as [|row rest IH]; intros m; cbn [fold_left].
  - done.
  - rewrite IH, Map_keys_loadRow.
    destruct (decide (included row)) as [Hin|Hout].
    + by rewrite filter_cons_True.
    + by rewrite filter_cons_False.
Qed.

(** *** [parseInt] does not see surrounding white space *)

Lemma takeWhile_dropWhile {A} (p : A → bool) (l : list A) :
  l = takeWhile p l ++ dropWhile p l.
Proof.
  induction l as [|x l IH]; cbn; [done|]. destruct (p x); [|done]. cbn. by f_equal.
Qed.

Lemma takeWhile_all {A} (p : A → bool) (l : list A) : Forall (λ x, p x = true) (takeWhile p l).
Proof.
  induction l as [|x l IH]; cbn; [done|]. destruct (p x) eqn:E; [|done]. by constructor.
Qed.

(** A string is its right-trimmed part followed by white space only. *)
Lemma trimEnd_split (s : jsstring) :
  ∃ w, s = trimEnd s ++ w ∧ Forall (λ c, isWhiteSpace c = true) w.
Proof.
  exists (reverse (takeWhile isWhiteSpace (reverse s))). split.
  - unfold trimEnd. rewrite <- reverse_app, <- takeWhile_dropWhile.
    by rewrite reverse_involutive.
  - apply Forall_reverse, takeWhile_all.
Qed.

Lemma digit_not_white (c : ascii) : isWhiteSpace c = true → isDigit c = false.
Proof.
  unfold isWhiteSpace, isDigit, in_range.
  rewrite !orb_true_iff, andb_true_iff, andb_false_iff, !N.leb_le, !N.eqb_eq, !N.leb_gt.
  lia.
Qed.

Lemma takeWhile_digit_app_white (a w : jsstring) :
  Forall (λ c, isWhiteSpace c = true) w →
  takeWhile isDigit (a ++ w) = takeWhile isDigit a.
Proof.
  intros Hw. induction a as [|c a IH]; cbn.
  - destruct Hw as [|c w Hc _]; [done|]. cbn. by rewrite digit_not_white.
  - by rewrite IH.
Qed.

Lemma trimStart_idem (s : jsstring) : trimStart (trimStart s) = trimStart s.
Proof.
  unfold trimStart. induction s as [|c s IH]; cbn; [done|].
  destruct (isWhiteSpace c) eqn:E; [done|]. cbn. by rewrite E.
Qed.

Lemma trimStart_head (s : jsstring) (c : ascii) (r : jsstring) :
  trimStart s = c :: r → isWhiteSpace c = false.
Proof.
  unfold trimStart. induction s as [|x s IH]; cbn; [done|].
  destruct (isWhiteSpace x) eqn:E; [done|]. by intros [= <- _].
Qed.

Lemma parseInt_trim (s : jsstring) : parseInt (trim s) = parseInt s.
Proof.
  unfold parseInt, trim.
  destruct (trimEnd_split (trimStart s)) as (w & Hsplit & Hw).
  destruct (trimEnd (trimStart s)) as [|c r] eqn:Hend.
  - cbn in Hsplit. cbn [trimStart dropWhile].
    destruct (trimStart s) as [|c r] eqn:Hstart; [done|].
    apply trimStart_head in Hstart as Hc. subst w.
    apply Forall_cons in Hw as [Hw _]. congruence.
  - destruct (trimStart s) as [|c' r'] eqn:Hstart; [done|].
    injection Hsplit as -> ->. apply trimStart_head in Hstart as Hc.
    assert (trimStart (c :: r) = c :: r) as ->.
    { unfold trimStart. cbn. by rewrite Hc. }
    destruct (decide (c = "-"%char)); [by rewrite takeWhile_digit_app_white|].
    destruct (decide (c = "+"%char)); [by rewrite takeWhile_digit_app_white|].
    change (c :: r ++ w) with ((c :: r) ++ w).
    by rewrite takeWhile_digit_app_white.
Qed.

Lemma included_iff (row : Row) :
  included row ↔
  parseInt (position row) = None ∨
  ∃ n, parseInt (position row) = Some n ∧ (n ≤ 10)%Z.
Proof.
  unfold included, positionOf. destruct (parseInt (position row)) as [n|].
  - destruct (Z.eqb_spec n 0) as [->|Hne].
    + split; [|lia]. intros _. right. exists 0%Z. split; [done|lia].
    + split; [intros; right; by exists n|]. intros [|(n' & [= <-] & Hle)]; done.
  - split; [by left|lia].
Qed.

(** C7.  [loadSerpData] keeps exactly the rows whose position reads as an
    integer at most 10 or does not read as a number at all (it then counts
    as 0), and drops the others without an error: the list stored under a
    keyword is the trimmed URLs of the kept rows with that trimmed keyword,
    in row order, the keys are the trimmed keywords of the kept rows in
    order of first appearance, white space around the position makes no
    difference, and no record gives the empty map. *)
Theorem loadSerpData_keeps_top10_rows :
  loadSerpData [] = []
  ∧ (∀ row, included row ↔
       parseInt (trim (position row)) = None ∨
       ∃ n, parseInt (trim (position row)) = Some n ∧ (n ≤ 10)%Z)
  ∧ (∀ records k,
       Map_get (loadSerpData records) k =
       match urlsFor k records with [] => None | us => Some us end)
  ∧ (∀ records,
       Map_keys (loadSerpData records) =
       newSet ((λ r, trim (keyword r)) <$> filter included records)).
Proof.
  split_and!.
  - reflexivity.
  - intros row. rewrite parseInt_trim. apply included_iff.
  - intros records k. unfold loadSerpData. rewrite Map_get_fold_loadRow.
    by destruct (urlsFor k records).
  - intros records. unfold loadSerpData. by rewrite Map_keys_fold_loadRow.
Qed.

(** Every keyword of a loaded map has at least one URL. *)
Lemma loadSerpData_nonempty (records : list Row) (kw : jsstring) (urls : list jsstring) :
  Map_get (loadSerpData records) kw = Some urls → urls ≠ [].
Proof.
  unfold loadSerpData. rewrite Map_get_fold_loadRow.
  destruct (urlsFor kw records); [done|]. by intros [= <-].
Qed.

Lemma loadSerpData_NoDup (records : list Row) : NoDup (Map_keys (loadSerpData records)).
Proof.
  unfold loadSerpData. rewrite Map_keys_fold_loadRow.
  apply fold_Set_add_NoDup, NoDup_nil_2.
Qed.

Lemma loadSerpData_example :
  loadSerpData
    [ mkRow (str " shoes ") (str "1") (str " https://a ");
      mkRow (str "shoes") (str "11") (str "https://b");
      mkRow (str "shoes") (str "n/a") (str "https://c");
      mkRow (str "boots") (str "10") (str "https://a");
      mkRow (str "shoes") (str "2") (str "https://a") ] =
  [ (str "shoes", [str "https://a"; str "https://c"; str "https://a"]);
    (str "boots", [str "https://a"]) ].
Proof. vm_compute. reflexivity. Qed.

Lemma parseInt_examples :
  parseInt (str " 12abc") = Some 12%Z ∧ parseInt (str "-5") = Some (-5)%Z ∧
  parseInt (str "+7.9") = Some 7%Z ∧ parseInt (str "abc") = None ∧
  parseInt (str "") = None ∧ parseInt (str "11") = Some 11%Z.
Proof. vm_compute. done. Qed.

(** ** Entries of the overlap matrix *)

(** C6.  An entry of the matrix [calculateUrlOverlap] returns was written
    for a pair of keywords of the map, under their joined names; its shared
    URLs are the URLs of the first keyword that the second one ranks too,
    its count is their number and is at least 1, so a pair whose URL sets
    do not meet is never recorded; and its score is that count divided by
    the smaller of the two deduplicated URL-set sizes, a value above 0 and
    at most 1.  A map from [loadSerpData] has no keyword with an empty URL
    list. *)
Theorem calculateUrlOverlap_entry_score (serpData : SerpData) (key : jsstring)
    (data : OverlapData) :
  (key, data) ∈ Map_entries (calculateUrlOverlap serpData) →
  (1 ≤ count data)%nat
  ∧ count data = length (sharedUrls data)
  ∧ (∃ kw1 kw2,
       kw1 ∈ Map_keys serpData ∧ kw2 ∈ Map_keys serpData
       ∧ key = pairKey kw1 kw2
       ∧ (1 ≤ Nat.min (Set_size (urlSet serpData kw1)) (Set_size (urlSet serpData kw2)))%nat
       ∧ overlapScore data =
           (inject_Z (Z.of_nat (count data)) /
            inject_Z (Z.of_nat (Nat.min (Set_size (urlSet serpData kw1))
                                        (Set_size (urlSet serpData kw2)))))%Q
       ∧ (kw1, kw2) ∈ combinations (Map_keys serpData)
       ∧ sharedUrls data =
           filter (λ url, url ∈ urlSet serpData kw2) (urlSet serpData kw1)
       ∧ count data = sharedCount serpData kw1 kw2
       ∧ (∃ url, url ∈ urlSet serpData kw1 ∧ url ∈ urlSet serpData kw2)
       ∧ (∀ url, url ∈ sharedUrls data ↔
                 url ∈ urlSet serpData kw1 ∧ url ∈ urlSet serpData kw2))
  ∧ (0 < overlapScore data)%Q ∧ (overlapScore data <= 1)%Q
  ∧ (∀ records kw urls,
       Map_get (loadSerpData records) kw = Some urls → urls ≠ []).
Proof.
  intros (kw1 & kw2 & Hpair & Hkey & Hshared & Hcount & Hpos & Hscore)%calculateUrlOverlap_entries.
  cbn [fst snd] in *. pose proof (elem_of_combinations _ _ _ Hpair) as [Hk1 Hk2].
  assert (count data ≤
          Nat.min (Set_size (urlSet serpData kw1)) (Set_size (urlSet serpData kw2)))%nat
    as Hle.
  { rewrite Hcount, Hshared. apply shared_length_le, newSet_NoDup. }
  destruct (score_bounds _ _ Hpos Hle) as [Hlo Hhi].
  assert (∀ url, url ∈ sharedUrls data ↔
                 url ∈ urlSet serpData kw1 ∧ url ∈ urlSet serpData kw2) as Hmem.
  { intros url. rewrite Hshared, list_elem_of_filter. tauto. }
  split_and!; [lia|done| |by rewrite Hscore|by rewrite Hscore|apply loadSerpData_nonempty].
  exists kw1, kw2. split_and!; [done|done|done|lia|done|done|done| | |done].
  - rewrite Hcount, Hshared. reflexivity.
  - destruct (sharedUrls data) as [|url rest] eqn:E; [cbn in Hcount; lia|].
    exists url. apply Hmem. left.
Qed.

Lemma calculateUrlOverlap_entry_score_witness :
  let data := mkOverlapData (Examples.u <$> ["1"; "2"; "3"; "4"; "5"]%string) 5 (5 # 5) in
  (str "A|B", data) ∈ Map_entries (calculateUrlOverlap Examples.abcd)
  ∧ (1 ≤ count data)%nat ∧ (0 < overlapScore data)%Q ∧ (overlapScore data <= 1)%Q.
Proof.
  intros data.
  assert ((str "A|B", data) ∈ Map_entries (calculateUrlOverlap Examples.abcd)) as Hin.
  { vm_compute. left. }
  split; [exact Hin|].
  destruct (calculateUrlOverlap_entry_score Examples.abcd (str "A|B") data Hin)
    as (H1 & _ & _ & Hlo & Hhi & _).
  split_and!; assumption.
Defined.

(** ** Keys and the separator *)

Lemma split_nonempty (sep : ascii) (s : jsstring) : split sep s ≠ [].
Proof.
  destruct s as [|c s]; cbn; [done|].
  destruct (decide (c = sep)); [done|]. by destruct (split sep s).
Qed.

Lemma split_no_sep (sep : ascii) (s : jsstring) : sep ∉ s → split sep s = [s].
Proof.
  induction s as [|c s IH]; cbn; [done|].
  intros [Hc Hs]%not_elem_of_cons. rewrite decide_False by done. by rewrite IH.
Qed.

Lemma split_app_sep (sep : ascii) (a b : jsstring) :
  sep ∉ a → split sep (a ++ sep :: b) = a :: split sep b.
Proof.
  induction a as [|c a IH]; cbn.
  - intros _. by rewrite decide_True.
  - intros [Hc Ha]%not_elem_of_cons. rewrite decide_False by done. by rewrite IH.
Qed.

(** Splitting gives the two keywords back when neither holds the separator. *)
Lemma splitKey_pairKey (kw1 kw2 : jsstring) :
  "|"%char ∉ kw1 → "|"%char ∉ kw2 →
  splitKey (pairKey kw1 kw2) = (Some kw1, Some kw2).
Proof.
  intros H1 H2. unfold splitKey, pairKey. cbn [app].
  by rewrite split_app_sep, split_no_sep.
Qed.

(** The first name split from a key is always a string. *)
Lemma splitKey_fst (key : jsstring) : is_Some (splitKey key).1.
Proof.
  unfold splitKey. cbn [fst]. pose proof (split_nonempty "|"%char key).
  destruct (split "|"%char key); [done|]. by eexists.
Qed.

(** With separator-free keywords, every key of the matrix splits into the
    two distinct keywords of the map it was written for. *)
Lemma calculateUrlOverlap_splitKey (serpData : SerpData) (e : jsstring * OverlapData) :
  (∀ kw, kw ∈ Map_keys serpData → "|"%char ∉ kw) →
  e ∈ Map_entries (calculateUrlOverlap serpData) →
  ∃ kw1 kw2, kw1 ∈ Map_keys serpData ∧ kw2 ∈ Map_keys serpData
    ∧ (NoDup (Map_keys serpData) → kw1 ≠ kw2)
    ∧ splitKey e.1 = (Some kw1, Some kw2).
Proof.
  intros Hsep (kw1 & kw2 & Hpair & Hkey & _)%calculateUrlOverlap_entries.
  pose proof (elem_of_combinations _ _ _ Hpair) as [Hk1 Hk2].
  exists kw1, kw2. split_and!; [done|done| |].
  - intros Hnd. by eapply combinations_distinct.
  - rewrite Hkey. apply splitKey_pairKey; by apply Hsep.
Qed.

(** ** The stable sort *)

Lemma insertSorted_Permutation {A} (cmp : A → A → Z) (x : A) (l : list A) :
  insertSorted cmp x l ≡ₚ x :: l.
Proof.
  induction l as [|y l IH]; cbn; [done|].
  destruct (cmp x y <=? 0)%Z; [done|]. rewrite IH. apply Permutation_swap.
Qed.

Lemma sortBy_Permutation {A} (cmp : A → A → Z) (l : list A) : sortBy cmp l ≡ₚ l.
Proof.
  induction l as [|x l IH]; cbn; [done|].
  rewrite insertSorted_Permutation. by rewrite IH.
Qed.

Lemma elem_of_sortBy {A} (cmp : A → A → Z) (l : list A) (x : A) :
  x ∈ sortBy cmp l ↔ x ∈ l.
Proof. by rewrite sortBy_Permutation. Qed.

Lemma compareCount_le (a b : jsstring * OverlapData) :
  (compareCount a b ≤ 0)%Z ↔ countGe a b.
Proof. unfold compareCount, countGe. lia. Qed.

Lemma insertSorted_sorted (x : jsstring * OverlapData) (l : list (jsstring * OverlapData)) :
  StronglySorted countGe l → StronglySorted countGe (insertSorted compareCount x l).
Proof.
  induction 1 as [|y l Hl IH Hy]; cbn.
  - by repeat constructor.
  - destruct (Z.leb_spec (compareCount x y) 0) as [Hle|Hgt].
    + apply compareCount_le in Hle. constructor; [by constructor|].
      constructor; [done|]. eapply Forall_impl; [exact Hy|].
      intros z Hz. unfold countGe in *. lia.
    + constructor; [done|]. rewrite insertSorted_Permutation.
      constructor; [|done]. unfold compareCount, countGe in *. lia.
Qed.

Lemma sortBy_sorted (l : list (jsstring * OverlapData)) :
  StronglySorted countGe (sortBy compareCount l).
Proof.
  induction l as [|x l IH]; cbn; [constructor|]. by apply insertSorted_sorted.
Qed.

(** Stability: the entries of any one count keep their relative order. *)
Lemma insertSorted_stable (n : nat) (x : jsstring * OverlapData)
    (l : list (jsstring * OverlapData)) :
  filter (λ e, count e.2 = n) (insertSorted compareCount x l) =
  filter (λ e, count e.2 = n) (x :: l).
Proof.
  induction l as [|y l IH]; cbn [insertSorted]; [done|].
  destruct (Z.leb_spec (compareCount x y) 0) as [Hle|Hgt]; [done|].
  rewrite filter_cons, IH, !filter_cons.
  unfold compareCount in Hgt.
  destruct (decide (count y.2 = n)), (decide (count x.2 = n)); try done. lia.
Qed.

Lemma sortBy_stable (n : nat) (l : list (jsstring * OverlapData)) :
  filter (λ e, count e.2 = n) (sortBy compareCount l) = filter (λ e, count e.2 = n) l.
Proof.
  induction l as [|x l IH]; cbn [sortBy foldr]; [done|].
  rewrite insertSorted_stable, !filter_cons. fold (sortBy compareCount l).
  by rewrite IH.
Qed.

(** ** The loop and its early exit *)

Lemma qualifies_true (minOverlap : Z) (e : jsstring * OverlapData) :
  qualifies minOverlap e = true ↔ (minOverlap ≤ Z.of_nat (count e.2))%Z.
Proof. unfold qualifies. rewrite negb_true_iff, Z.ltb_ge. done. Qed.

Lemma greedyLoop_takeWhile (minOverlap : Z) (pairs : list (jsstring * OverlapData))
    (st : GreedyState) :
  greedyLoop minOverlap pairs st =
  fold_left joinEntry (takeWhile (qualifies minOverlap) pairs) st.
Proof.
  revert st. induction pairs as [|[key data] rest IH]; intros st; cbn [greedyLoop takeWhile].
  - done.
  - unfold qualifies at 1. cbn [snd].
    destruct (Z.of_nat (count data) <? minOverlap)%Z; cbn [negb fold_left]; [done|].
    rewrite <- IH. unfold joinEntry. cbn [fst]. by destruct (splitKey key).
Qed.

(** The [break]: whatever follows the first entry below the threshold is
    never looked at. *)
Lemma greedyLoop_break (minOverlap : Z) (before after : list (jsstring * OverlapData))
    (e : jsstring * OverlapData) (st : GreedyState) :
  Forall (λ p, (minOverlap ≤ Z.of_nat (count p.2))%Z) before →
  (Z.of_nat (count e.2) < minOverlap)%Z →
  greedyLoop minOverlap (before ++ e :: after) st = fold_left joinEntry before st.
Proof.
  intros Hbefore He. rewrite greedyLoop_takeWhile. f_equal.
  induction Hbefore as [|p before Hp _ IH]; cbn [app takeWhile].
  - unfold qualifies. by rewrite (proj2 (Z.ltb_lt _ _) He).
  - rewrite (proj2 (qualifies_true _ _) Hp). by rewrite IH.
Qed.

Lemma elem_of_takeWhile {A} (p : A → bool) (l : list A) (x : A) :
  x ∈ takeWhile p l → x ∈ l ∧ p x = true.
Proof.
  induction l as [|y l IH]; cbn; [by intros ?%elem_of_nil|].
  destruct (p y) eqn:E; [|by intros ?%elem_of_nil].
  intros [->|Hin]%elem_of_cons; [split; [by left|done]|].
  destruct (IH Hin). split; [by right|done].
Qed.

(** On a list in descending order the early exit loses nothing: the entries
    before the first one below the threshold are all those that reach it. *)
Lemma takeWhile_sorted_filter (minOverlap : Z) (l : list (jsstring * OverlapData)) :
  StronglySorted countGe l →
  takeWhile (qualifies minOverlap) l = filter (λ e, qualifies minOverlap e) l.
Proof.
  induction 1 as [|y l Hl IH Hy]; cbn [takeWhile]; [done|].
  destruct (qualifies minOverlap y) eqn:E.
  - rewrite filter_cons_True; [|by apply Is_true_true]. by rewrite IH.
  - rewrite filter_cons_False; [|by apply Is_true_false].
    symmetry. apply elem_of_nil_inv.
    rewrite Forall_forall in Hy.
    intros z [Hq%Is_true_true%qualifies_true Hz]%list_elem_of_filter.
    specialize (Hy z Hz). unfold countGe in Hy.
    apply not_true_iff_false in E. apply E, qualifies_true. lia.
Qed.

Lemma elem_of_processedPairs (overlapMatrix : OverlapMatrix) (minOverlap : Z)
    (e : jsstring * OverlapData) :
  e ∈ processedPairs overlapMatrix minOverlap ↔
  e ∈ Map_entries overlapMatrix ∧ (minOverlap ≤ Z.of_nat (count e.2))%Z.
Proof.
  unfold processedPairs. rewrite takeWhile_sorted_filter by apply sortBy_sorted.
  rewrite list_elem_of_filter, elem_of_sortBy, Is_true_true, qualifies_true. tauto.
Qed.

Lemma greedyPass_fold (overlapMatrix : OverlapMatrix) (minOverlap : Z) :
  greedyPass overlapMatrix minOverlap =
  fold_left joinEntry (processedPairs overlapMatrix minOverlap) initialState.
Proof. unfold greedyPass. apply greedyLoop_takeWhile. Qed.

(** Every member of a cluster of the greedy pass is one of the two names
    split from an entry that reaches the threshold. *)
Lemma greedyPass_members (overlapMatrix : OverlapMatrix) (minOverlap : Z)
    (c : Cluster) (x : member) :
  c ∈ clusters (greedyPass overlapMatrix minOverlap) → x ∈ c →
  ∃ key data, (key, data) ∈ Map_entries overlapMatrix
    ∧ (minOverlap ≤ Z.of_nat (count data))%Z
    ∧ (x = (splitKey key).1 ∨ x = (splitKey key).2).
Proof.
  unfold greedyPass.
  apply (greedyLoop_members
    (λ x, ∃ key data, (key, data) ∈ Map_entries overlapMatrix
       ∧ (minOverlap ≤ Z.of_nat (count data))%Z
       ∧ (x = (splitKey key).1 ∨ x = (splitKey key).2))).
  - intros c' x' Hc'. by apply elem_of_nil in Hc'.
  - intros key data Hin%elem_of_sortBy Hcount.
    split; exists key, data; split_and!; auto.
Qed.

(** A cluster of two or more members comes from the greedy pass. *)
Lemma clusterKeywords_multi (serpData : SerpData) (overlapMatrix : OverlapMatrix)
    (minOverlap : Z) (c : Cluster) :
  c ∈ clusterKeywords serpData overlapMatrix minOverlap → (2 ≤ length c)%nat →
  c ∈ clusters (greedyPass overlapMatrix minOverlap).
Proof.
  rewrite clusterKeywords_eq. intros [Hc|Hc]%elem_of_app Hlen; [done|].
  apply list_elem_of_fmap in Hc as (kw & -> & _). cbn in Hlen. lia.
Qed.

(** What the loop leaves untouched: on sorted entries, everything from the
    first entry below the threshold on is below it. *)
Lemma dropWhile_sorted_below (minOverlap : Z) (l : list (jsstring * OverlapData))
    (e : jsstring * OverlapData) :
  StronglySorted countGe l →
  e ∈ dropWhile (qualifies minOverlap) l → (Z.of_nat (count e.2) < minOverlap)%Z.
Proof.
  induction 1 as [|y l Hl IH Hy]; cbn [dropWhile]; [by intros ?%elem_of_nil|].
  destruct (qualifies minOverlap y) eqn:E; [done|].
  assert (Z.of_nat (count y.2) < minOverlap)%Z as Hlow.
  { apply not_true_iff_false in E. rewrite qualifies_true in E. lia. }
  intros [->|Hin]%elem_of_cons; [done|].
  rewrite Forall_forall in Hy. specialize (Hy e Hin). unfold countGe in Hy. lia.
Qed.

(** ** Coverage and multiplicity *)

Lemma occurrences_app (x : member) (cs1 cs2 : list Cluster) :
  occurrences x (cs1 ++ cs2) = (occurrences x cs1 + occurrences x cs2)%nat.
Proof. unfold occurrences. by rewrite filter_app, length_app. Qed.

Lemma occurrences_none (x : member) (cs : list Cluster) :
  (∀ c, c ∈ cs → x ∉ c) → occurrences x cs = 0%nat.
Proof.
  intros Hno. unfold occurrences.
  rewrite (elem_of_nil_inv (filter (λ c : Cluster, x ∈ c) cs)); [done|].
  intros c [Hx Hc]%list_elem_of_filter. by eapply Hno.
Qed.

Lemma occurrences_singletons (kw : jsstring) (kws : list jsstring) :
  NoDup kws → kw ∈ kws →
  occurrences (Some kw) ((λ k, [Some k]) <$> kws) = 1%nat.
Proof.
  unfold occurrences. induction 1 as [|k kws Hk Hnd IH]; [by intros ?%elem_of_nil|].
  rewrite fmap_cons. intros [->|Hin]%elem_of_cons.
  - rewrite filter_cons_True by by apply list_elem_of_singleton.
    cbn [length]. f_equal. apply (occurrences_none (Some k)).
    intros c (k' & -> & Hk')%list_elem_of_fmap [= ->]%list_elem_of_singleton. done.
  - rewrite filter_cons_False; [by apply IH|].
    intros [= ->]%list_elem_of_singleton. done.
Qed.

Lemma occurrences_pos (x : member) (cs : list Cluster) (c : Cluster) :
  c ∈ cs → x ∈ c → (1 ≤ occurrences x cs)%nat.
Proof.
  intros Hc Hx. unfold occurrences.
  assert (c ∈ filter (λ c : Cluster, x ∈ c) cs) as Hin by by apply list_elem_of_filter.
  destruct (filter (λ c : Cluster, x ∈ c) cs); [by apply elem_of_nil in Hin|cbn; lia].
Qed.

Lemma occurrences_at_most_one (x : member) (cs : list Cluster) :
  (∀ i j ci cj, cs !! i = Some ci → cs !! j = Some cj → x ∈ ci → x ∈ cj → i = j) →
  (occurrences x cs ≤ 1)%nat.
Proof.
  unfold occurrences. induction cs as [|c cs IH]; intros Hone; [cbn; lia|].
  destruct (decide (x ∈ c)) as [Hx|Hx].
  - rewrite filter_cons_True by done. cbn [length].
    rewrite (elem_of_nil_inv (filter (λ c : Cluster, x ∈ c) cs)); [cbn; lia|].
    intros c' [Hx' Hc']%list_elem_of_filter.
    apply list_elem_of_lookup in Hc' as [j Hj].
    by specialize (Hone 0%nat (S j) c c' eq_refl Hj Hx Hx').
  - rewrite filter_cons_False by done. apply IH.
    intros i j ci cj Hi Hj Hxi Hxj.
    by specialize (Hone (S i) (S j) ci cj Hi Hj Hxi Hxj) as [= ->].
Qed.

Lemma initialState_disjoint : clustersDisjoint initialState.
Proof. intros i j ci cj x Hi. by destruct i. Qed.

(** The loop body keeps the clusters disjoint when the two names it is given
    are not in two different clusters. *)
Lemma joinPair_disjoint (st : GreedyState) (kw1 kw2 : member) :
  clustersDisjoint st → namesTogether st kw1 kw2 →
  clustersDisjoint (joinPair st kw1 kw2).
Proof.
  intros Hdis Htog. unfold clustersDisjoint, joinPair. cbn [clusters].
  destruct (findClusterIdx (clusters st) kw1 kw2) as [i0|] eqn:Hfind.
  - apply findClusterIdx_Some in Hfind as (c0 & Hc0 & Hholds & _).
    assert (∀ j cj x, j ≠ i0 → clusters st !! j = Some cj →
              x ∈ Set_add (Set_add c0 kw1) kw2 → x ∈ cj → False) as Hother.
    { intros j cj x Hne Hj [Hx|[->| ->]]%elem_of_add_pair Hxj.
      - by apply Hne, (Hdis j i0 cj c0 x).
      - destruct Hholds as [Hh|Hh].
        + by apply Hne, (Hdis j i0 cj c0 kw1).
        + by apply Hne, (Htog j i0 cj c0).
      - destruct Hholds as [Hh|Hh].
        + by apply Hne, eq_sym, (Htog i0 j c0 cj).
        + by apply Hne, (Hdis j i0 cj c0 kw2). }
    intros i j ci cj x Hi Hj Hxi Hxj.
    destruct (decide (i = i0)) as [->|Hi0], (decide (j = i0)) as [->|Hj0]; [done| | |].
    + rewrite list_lookup_alter, Hc0 in Hi. cbn in Hi.
      rewrite decide_True in Hi by done. injection Hi as <-.
      rewrite list_lookup_alter_ne in Hj by done.
      by destruct (Hother j cj x).
    + rewrite list_lookup_alter, Hc0 in Hj. cbn in Hj.
      rewrite decide_True in Hj by done. injection Hj as <-.
      rewrite list_lookup_alter_ne in Hi by done.
      by destruct (Hother i ci x).
    + rewrite list_lookup_alter_ne in Hi, Hj by done. by eapply Hdis.
  - pose proof (proj1 (findClusterIdx_None _ _ _) Hfind) as Hnone.
    assert (∀ j cj x, clusters st !! j = Some cj → x ∈ newSet [kw1; kw2] →
              x ∈ cj → False) as Hother.
    { intros j cj x Hj [->| ->]%elem_of_new_pair Hxj;
        apply list_elem_of_lookup_2 in Hj; destruct (Hnone cj Hj); done. }
    intros i j ci cj x Hi Hj Hxi Hxj.
    apply lookup_app_Some in Hi as [Hi|[Hli Hi]], Hj as [Hj|[Hlj Hj]].
    + by eapply Hdis.
    + apply list_lookup_singleton_Some in Hj as [_ <-]. by destruct (Hother i ci x).
    + apply list_lookup_singleton_Some in Hi as [_ <-]. by destruct (Hother j cj x).
    + apply list_lookup_singleton_Some in Hi as [Hi _].
      apply list_lookup_singleton_Some in Hj as [Hj _]. lia.
Qed.

Lemma fold_joinEntry_disjoint (pairs : list (jsstring * OverlapData))
    (st : GreedyState) :
  clustersDisjoint st → noBridge pairs st →
  clustersDisjoint (fold_left joinEntry pairs st).
Proof.
  revert st. induction pairs as [|e rest IH]; intros st Hdis Hno; [done|].
  destruct Hno as [Htog Hrest]. cbn [fold_left].
  apply IH; [|done]. by apply joinPair_disjoint.
Qed.

(** While there is at most one cluster, no pair can bridge two. *)
Lemma namesTogether_one_cluster (st : GreedyState) (kw1 kw2 : member) :
  (length (clusters st) ≤ 1)%nat → namesTogether st kw1 kw2.
Proof.
  intros Hlen i j ci cj Hi%lookup_lt_Some Hj%lookup_lt_Some _ _. lia.
Qed.

(** C1, as amended.  The clusters cover the keyword set: every keyword of
    the map is a member of at least one returned cluster.  A keyword the
    greedy pass did not assign is a member of exactly one cluster, its own
    singleton.  When no processed pair has its two names in two different
    clusters at the moment it is processed, the clusters partition the
    keyword set: every keyword is a member of exactly one of them. *)
Theorem clusterKeywords_covers_keyword_set (serpData : SerpData) (minOverlap : Z) :
  NoDup (Map_keys serpData) →
  let overlapMatrix := calculateUrlOverlap serpData in
  let result := clusterKeywords serpData overlapMatrix minOverlap in
  (∀ kw, kw ∈ Map_keys serpData → ∃ c, c ∈ result ∧ Some kw ∈ c)
  ∧ (∀ kw, kw ∈ Map_keys serpData →
       Some kw ∉ assigned (greedyPass overlapMatrix minOverlap) →
       occurrences (Some kw) result = 1%nat
       ∧ [Some kw] ∈ result
       ∧ ∀ c, c ∈ result → Some kw ∈ c → c = [Some kw])
  ∧ (noBridge (processedPairs overlapMatrix minOverlap) initialState →
     ∀ kw, kw ∈ Map_keys serpData → occurrences (Some kw) result = 1%nat).
Proof.
  intros Hnd overlapMatrix result.
  assert (∀ kw, kw ∈ Map_keys serpData →
            Some kw ∉ assigned (greedyPass overlapMatrix minOverlap) →
            occurrences (Some kw) result = 1%nat) as Hout1.
  { intros kw Hkw Hout. subst result. rewrite clusterKeywords_eq, occurrences_app.
    rewrite occurrences_none, occurrences_singletons; [done| | |].
    - by apply NoDup_filter.
    - by apply list_elem_of_filter.
    - intros c Hc Hx. apply Hout, greedyPass_assignedExact. by exists c. }
  split_and!.
  - intros kw. apply clusterKeywords_covers.
  - intros kw Hkw Hout. split_and!; [by apply Hout1| |].
    + subst result. rewrite clusterKeywords_eq. apply elem_of_app. right.
      apply list_elem_of_fmap. exists kw. split; [done|]. by apply list_elem_of_filter.
    + subst result. rewrite clusterKeywords_eq.
      intros c [Hc|Hc]%elem_of_app Hx.
      * destruct Hout. apply greedyPass_assignedExact. by exists c.
      * apply list_elem_of_fmap in Hc as (k & -> & _).
        by apply list_elem_of_singleton in Hx as [= ->].
  - intros Hno kw Hkw.
    destruct (decide (Some kw ∈ assigned (greedyPass overlapMatrix minOverlap)))
      as [Hin|Hout]; [|by apply Hout1].
    subst result. rewrite clusterKeywords_eq, occurrences_app.
    rewrite (occurrences_none _ (_ <$> _)).
    + apply greedyPass_assignedExact in Hin as (c & Hc & Hx).
      pose proof (occurrences_pos _ _ _ Hc Hx) as Hge.
      assert (occurrences (Some kw) (clusters (greedyPass overlapMatrix minOverlap)) ≤ 1)%nat
        as Hle; [|lia].
      apply occurrences_at_most_one. intros i j ci cj Hi Hj Hxi Hxj.
      assert (clustersDisjoint (greedyPass overlapMatrix minOverlap)) as Hdis.
      { rewrite greedyPass_fold.
        apply fold_joinEntry_disjoint; [apply initialState_disjoint|done]. }
      by eapply Hdis.
    + intros c (k & -> & [Hk _]%list_elem_of_filter)%list_elem_of_fmap
        [= ->]%list_elem_of_singleton.
      done.
Qed.

Lemma clusterKeywords_covers_keyword_set_witness :
  NoDup (Map_keys Examples.abcd)
  ∧ noBridge (processedPairs (calculateUrlOverlap Examples.abcd) 3) initialState
  ∧ (∃ c, c ∈ clusterKeywords Examples.abcd (calculateUrlOverlap Examples.abcd) 3
          ∧ Some (str "C") ∈ c)
  ∧ occurrences (Some (str "C"))
      (clusterKeywords Examples.abcd (calculateUrlOverlap Examples.abcd) 3) = 1%nat.
Proof.
  assert (NoDup (Map_keys Examples.abcd)) as Hnd.
  { by_compute. }
  assert (noBridge (processedPairs (calculateUrlOverlap Examples.abcd) 3) initialState)
    as Hno.
  { let pairs := eval vm_compute in
        (processedPairs (calculateUrlOverlap Examples.abcd) 3) in
    assert (processedPairs (calculateUrlOverlap Examples.abcd) 3 = pairs) as ->
      by (vm_compute; reflexivity).
    cbn [noBridge]. split_and!; [..|exact I];
      apply namesTogether_one_cluster; vm_compute; lia. }
  assert (str "C" ∈ Map_keys Examples.abcd) as Hc.
  { by_compute. }
  destruct (clusterKeywords_covers_keyword_set Examples.abcd 3 Hnd)
    as (Hcover & _ & Hone).
  split_and!; [exact Hnd|exact Hno|by apply Hcover|by apply Hone].
Defined.

(** C1, as stated, fails: with A-B and C-D sharing five URLs and A-C four,
    keyword C ends up a member of two of the returned clusters. *)
Lemma partition_fails_on_bridge :
  str "C" ∈ Map_keys Examples.bridge
  ∧ clusterKeywords Examples.bridge (calculateUrlOverlap Examples.bridge) 3 =
      [ [Some (str "A"); Some (str "B"); Some (str "C")];
        [Some (str "C"); Some (str "D")] ]
  ∧ occurrences (Some (str "C"))
      (clusterKeywords Examples.bridge (calculateUrlOverlap Examples.bridge) 3) = 2%nat.
Proof.
  split_and!; [by_compute|vm_compute; reflexivity..].
Qed.

(** ** Greedy clusters, then singletons *)

Lemma fold_joinEntry_assigned (pairs : list (jsstring * OverlapData))
    (st : GreedyState) (x : member) :
  x ∈ assigned (fold_left joinEntry pairs st) ↔
  x ∈ assigned st ∨
  ∃ e, e ∈ pairs ∧ (x = (splitKey e.1).1 ∨ x = (splitKey e.1).2).
Proof.
  revert st. induction pairs as [|e rest IH]; intros st; cbn [fold_left].
  - split; [by left|]. intros [|(e & He & _)]; [done|]. by apply elem_of_nil in He.
  - rewrite IH. unfold joinEntry, joinPair. cbn [assigned].
    rewrite elem_of_add_pair. setoid_rewrite elem_of_cons. naive_solver.
Qed.

Lemma Set_add_length {A} `{EqDecision A} (s : JsSet A) (x : A) :
  (length s ≤ length (Set_add s x))%nat.
Proof.
  unfold Set_add. destruct (Set_has s x); [done|]. rewrite length_app. lia.
Qed.

Lemma newSet_pair_length (kw1 kw2 : member) :
  kw1 ≠ kw2 → length (newSet [kw1; kw2]) = 2%nat.
Proof.
  intros Hne. unfold newSet, Set_add, Set_has. cbn [fold_left].
  rewrite (bool_decide_eq_false_2 (kw1 ∈ [])) by apply not_elem_of_nil.
  cbn [app]. rewrite bool_decide_eq_false_2; [done|].
  intros ->%list_elem_of_singleton. done.
Qed.

Lemma joinPair_multi (st : GreedyState) (kw1 kw2 : member) :
  kw1 ≠ kw2 →
  (∀ c, c ∈ clusters st → (2 ≤ length c)%nat) →
  ∀ c, c ∈ clusters (joinPair st kw1 kw2) → (2 ≤ length c)%nat.
Proof.
  intros Hne Hst c. unfold joinPair. cbn [clusters].
  destruct (findClusterIdx (clusters st) kw1 kw2) as [i|].
  - intros [j Hj]%list_elem_of_lookup. destruct (decide (i = j)) as [->|Hij].
    + rewrite list_lookup_alter_eq in Hj.
      apply fmap_Some in Hj as (c0 & Hc0 & ->).
      pose proof (Hst c0 (list_elem_of_lookup_2 _ _ _ Hc0)).
      pose proof (Set_add_length c0 kw1).
      pose proof (Set_add_length (Set_add c0 kw1) kw2). lia.
    + rewrite list_lookup_alter_ne in Hj by done.
      apply Hst. by eapply list_elem_of_lookup_2.
  - intros [Hc| ->%list_elem_of_singleton]%elem_of_app; [by apply Hst|].
    by rewrite newSet_pair_length.
Qed.

Lemma fold_joinEntry_multi (pairs : list (jsstring * OverlapData)) (st : GreedyState) :
  (∀ e, e ∈ pairs → (splitKey e.1).1 ≠ (splitKey e.1).2) →
  (∀ c, c ∈ clusters st → (2 ≤ length c)%nat) →
  ∀ c, c ∈ clusters (fold_left joinEntry pairs st) → (2 ≤ length c)%nat.
Proof.
  revert st. induction pairs as [|e rest IH]; intros st Hpairs Hst; cbn [fold_left].
  - done.
  - apply IH.
    + intros e' He'. apply Hpairs. by right.
    + apply joinPair_multi; [|done]. apply Hpairs. by left.
Qed.

(** With separator-free keywords the two names of a processed entry differ. *)
Lemma processedPairs_distinct (serpData : SerpData) (minOverlap : Z)
    (e : jsstring * OverlapData) :
  NoDup (Map_keys serpData) →
  (∀ kw, kw ∈ Map_keys serpData → "|"%char ∉ kw) →
  e ∈ processedPairs (calculateUrlOverlap serpData) minOverlap →
  (splitKey e.1).1 ≠ (splitKey e.1).2.
Proof.
  intros Hnd Hsep [He _]%elem_of_processedPairs.
  destruct (calculateUrlOverlap_splitKey serpData e Hsep He)
    as (kw1 & kw2 & _ & _ & Hne & ->).
  cbn. intros [= Heq]. by apply Hne.
Qed.

(** X20.  The result is the clusters of the greedy pass, in the order they
    were formed, followed by one singleton for each keyword of the map
    that is not in [assigned], in the map's key order; [assigned] holds
    exactly the names split from the processed entries; every keyword of
    the map is a member of some returned cluster.  A cluster of the greedy
    pass has two or more members when the two names split from each
    processed key differ, which they do for a matrix computed from a map
    whose keywords are free of the separator. *)
Theorem clusterKeywords_greedy_then_singletons (serpData : SerpData)
    (overlapMatrix : OverlapMatrix) (minOverlap : Z) :
  let st := greedyPass overlapMatrix minOverlap in
  let result := clusterKeywords serpData overlapMatrix minOverlap in
  result =
    clusters st ++
    ((λ kw, [Some kw]) <$> filter (λ kw, Some kw ∉ assigned st) (Map_keys serpData))
  ∧ (∀ x, x ∈ assigned st ↔
       ∃ e, e ∈ processedPairs overlapMatrix minOverlap
            ∧ (x = (splitKey e.1).1 ∨ x = (splitKey e.1).2))
  ∧ (∀ kw, kw ∈ Map_keys serpData → ∃ c, c ∈ result ∧ Some kw ∈ c)
  ∧ ((∀ e, e ∈ processedPairs overlapMatrix minOverlap →
         (splitKey e.1).1 ≠ (splitKey e.1).2) →
     ∀ c, c ∈ clusters st → (2 ≤ length c)%nat)
  ∧ (overlapMatrix = calculateUrlOverlap serpData →
     NoDup (Map_keys serpData) →
     (∀ kw, kw ∈ Map_keys serpData → "|"%char ∉ kw) →
     ∀ c, c ∈ clusters st → (2 ≤ length c)%nat).
Proof.
  intros st result.
  assert (Hmulti : (∀ e, e ∈ processedPairs overlapMatrix minOverlap →
                      (splitKey e.1).1 ≠ (splitKey e.1).2) →
                   ∀ c, c ∈ clusters st → (2 ≤ length c)%nat).
  { intros Hne. subst st. rewrite greedyPass_fold.
    apply fold_joinEntry_multi; [done|]. intros c Hc. by apply elem_of_nil in Hc. }
  split_and!.
  - apply clusterKeywords_eq.
  - intros x. subst st. rewrite greedyPass_fold, fold_joinEntry_assigned.
    cbn [initialState assigned]. rewrite elem_of_nil. naive_solver.
  - intros kw. apply clusterKeywords_covers.
  - exact Hmulti.
  - intros -> Hnd Hsep. apply Hmulti.
    intros e. by apply processedPairs_distinct.
Qed.

(** C9 at the failing input.  The keywords [x|x] and [y] rank the same
    three URLs, so their entry reaches the threshold 3 and is processed;
    its key [x|x|y] splits into [x] and [x], and the greedy pass forms the
    one-member cluster [{x}], which is no keyword of the map, while both
    keywords of the processed pair are appended as singletons: the
    returned list is not multi-keyword clusters followed by the singletons
    of the keywords outside every processed pair, and the two keywords are
    not in a common cluster. *)
Theorem greedy_cluster_of_one_member :
  let serpData := Examples.doubled in
  let overlapMatrix := calculateUrlOverlap serpData in
  Map_keys serpData = [str "x|x"; str "y"]
  ∧ sharedCount serpData (str "x|x") (str "y") = 3%nat
  ∧ Map_keys overlapMatrix = [pairKey (str "x|x") (str "y")]
  ∧ processedPairs overlapMatrix 3 = Map_entries overlapMatrix
  ∧ splitKey (pairKey (str "x|x") (str "y")) = (Some (str "x"), Some (str "x"))
  ∧ clusterKeywords serpData overlapMatrix 3 =
      [ [Some (str "x")]; [Some (str "x|x")]; [Some (str "y")] ]
  ∧ clusters (greedyPass overlapMatrix 3) = [ [Some (str "x")] ]
  ∧ (str "x" ∉ Map_keys serpData)
  ∧ ¬ (∃ c, c ∈ clusterKeywords serpData overlapMatrix 3
            ∧ Some (str "x|x") ∈ c ∧ Some (str "y") ∈ c).
Proof.
  intros serpData overlapMatrix.
  split_and!; [vm_compute; reflexivity..|by_compute|].
  assert (clusterKeywords serpData overlapMatrix 3 =
          [ [Some (str "x")]; [Some (str "x|x")]; [Some (str "y")] ]) as ->
    by (vm_compute; reflexivity).
  intros (c & Hc & H1 & H2).
  repeat (apply elem_of_cons in Hc as [->|Hc]);
    [apply list_elem_of_singleton in H1; discriminate H1
    |apply list_elem_of_singleton in H2; discriminate H2
    |apply list_elem_of_singleton in H1; discriminate H1
    |by apply elem_of_nil in Hc].
Qed.

(** ** Keys joined and split on the separator *)

Lemma saveOverlapMatrix_keywords (serpData : SerpData) (row : OverlapRow) :
  (∀ kw, kw ∈ Map_keys serpData → "|"%char ∉ kw) →
  row ∈ saveOverlapMatrix (calculateUrlOverlap serpData) →
  ∃ kw1 kw2, keyword1 row = Some kw1 ∧ keyword2 row = Some kw2
    ∧ kw1 ∈ Map_keys serpData ∧ kw2 ∈ Map_keys serpData.
Proof.
  intros Hsep ([key data] & -> & He)%list_elem_of_fmap.
  destruct (calculateUrlOverlap_splitKey serpData _ Hsep He)
    as (kw1 & kw2 & Hk1 & Hk2 & _ & Hsplit).
  exists kw1, kw2. unfold overlapRow. cbn [fst] in Hsplit. by rewrite Hsplit.
Qed.

Lemma clusterKeywords_members_keywords (serpData : SerpData) (minOverlap : Z)
    (c : Cluster) (x : member) :
  (∀ kw, kw ∈ Map_keys serpData → "|"%char ∉ kw) →
  c ∈ clusterKeywords serpData (calculateUrlOverlap serpData) minOverlap → x ∈ c →
  ∃ kw, x = Some kw ∧ kw ∈ Map_keys serpData.
Proof.
  intros Hsep. rewrite clusterKeywords_eq. intros [Hc|Hc]%elem_of_app Hx.
  - destruct (greedyPass_members _ _ _ _ Hc Hx) as (key & data & He & _ & Hkw).
    destruct (calculateUrlOverlap_splitKey serpData _ Hsep He)
      as (kw1 & kw2 & Hk1 & Hk2 & _ & Hsplit).
    cbn [fst] in Hsplit. rewrite Hsplit in Hkw. cbn in Hkw.
    destruct Hkw as [-> | ->]; eauto.
  - apply list_elem_of_fmap in Hc as (kw & -> & [_ Hkw]%list_elem_of_filter).
    apply list_elem_of_singleton in Hx as ->. eauto.
Qed.

(** C10.  A key of the overlap matrix is two keywords of the map joined by
    [|], and the keywords are read back by splitting on [|].  When no
    keyword of the map contains [|], every member of every returned cluster
    and both keywords of every row of the saved matrix are keywords of the
    map.  With the keywords [a|b] and [c], the returned cluster [{a, b}]
    holds strings that are no keyword of the map. *)
Theorem separator_in_keys :
  (∀ (serpData : SerpData) e, e ∈ Map_entries (calculateUrlOverlap serpData) →
     ∃ kw1 kw2, kw1 ∈ Map_keys serpData ∧ kw2 ∈ Map_keys serpData
       ∧ e.1 = kw1 ++ ["|"%char] ++ kw2)
  ∧ (∀ (serpData : SerpData) minOverlap,
       (∀ kw, kw ∈ Map_keys serpData → "|"%char ∉ kw) →
       (∀ (c : Cluster) x,
          c ∈ clusterKeywords serpData (calculateUrlOverlap serpData) minOverlap →
          x ∈ c → ∃ kw, x = Some kw ∧ kw ∈ Map_keys serpData)
       ∧ (∀ row, row ∈ saveOverlapMatrix (calculateUrlOverlap serpData) →
            ∃ kw1 kw2, keyword1 row = Some kw1 ∧ keyword2 row = Some kw2
              ∧ kw1 ∈ Map_keys serpData ∧ kw2 ∈ Map_keys serpData))
  ∧ (∃ (serpData : SerpData) kw (c : Cluster) x,
       kw ∈ Map_keys serpData ∧ "|"%char ∈ kw
       ∧ c ∈ clusterKeywords serpData (calculateUrlOverlap serpData) 3
       ∧ Some x ∈ c ∧ x ∉ Map_keys serpData).
Proof.
  split_and!.
  - intros serpData e (kw1 & kw2 & Hpair & Hkey & _)%calculateUrlOverlap_entries.
    apply elem_of_combinations in Hpair as [Hk1 Hk2]. by exists kw1, kw2.
  - intros serpData minOverlap Hsep. split.
    + intros c x. by apply clusterKeywords_members_keywords.
    + intros row. by apply saveOverlapMatrix_keywords.
  - exists Examples.piped, (str "a|b"), [Some (str "a"); Some (str "b")], (str "a").
    split_and!; by_compute.
Qed.

(** ** The four-keyword scenario *)

Lemma fold_Set_add_fresh {A} `{EqDecision A} (l s : list A) :
  NoDup (s ++ l) → fold_left Set_add l s = s ++ l.
Proof.
  revert s. induction l as [|x l IH]; intros s Hnd; cbn [fold_left].
  - by rewrite app_nil_r.
  - assert (x ∉ s) as Hx.
    { apply NoDup_app in Hnd as (_ & Hdisj & _). intros Hin.
      apply (Hdisj x Hin). by left. }
    unfold Set_add at 2. rewrite (proj2 (Set_has_false s x) Hx).
    rewrite IH; rewrite <- app_assoc; done.
Qed.

(** A duplicate-free list is its own set. *)
Lemma newSet_id {A} `{EqDecision A} (l : list A) : NoDup l → newSet l = l.
Proof. intros Hnd. unfold newSet. by rewrite fold_Set_add_fresh. Qed.

Lemma filter_all {A} (P : A → Prop) `{∀ x, Decision (P x)} (l : list A) :
  (∀ x, x ∈ l → P x) → filter P l = l.
Proof.
  induction l as [|x l IH]; intros Hall; [done|].
  rewrite filter_cons_True by (apply Hall; by left).
  rewrite IH; [done|]. intros y Hy. apply Hall. by right.
Qed.

Lemma filter_none {A} (P : A → Prop) `{∀ x, Decision (P x)} (l : list A) :
  (∀ x, x ∈ l → ¬ P x) → filter P l = [].
Proof.
  intros Hnone. apply elem_of_nil_inv. intros x [HP Hx]%list_elem_of_filter.
  by eapply Hnone.
Qed.

Section Scenario.
Variables shared other : list jsstring.
Hypothesis shared_NoDup : NoDup shared.
Hypothesis shared_five : length shared = 5%nat.
Hypothesis disjoint : ∀ url, url ∈ shared → url ∉ other.

Abbreviation serpData := (Examples.scenario shared other).
Abbreviation full := (fullEntry shared).

Lemma overlapPair_same (om : OverlapMatrix) (kw1 kw2 : jsstring) :
  Map_get serpData kw1 = Some shared → Map_get serpData kw2 = Some shared →
  overlapPair serpData om (kw1, kw2) = Map_set om (pairKey kw1 kw2) full.
Proof.
  intros H1 H2. unfold overlapPair, urlSet. rewrite H1, H2. cbn [from_option id].
  rewrite newSet_id by done. rewrite filter_Set_has, filter_all by done.
  unfold Set_size. rewrite shared_five. reflexivity.
Qed.

Lemma overlapPair_other (om : OverlapMatrix) (kw1 kw2 : jsstring) :
  Map_get serpData kw1 = Some shared → Map_get serpData kw2 = Some other →
  overlapPair serpData om (kw1, kw2) = om.
Proof.
  intros H1 H2. unfold overlapPair, urlSet. rewrite H1, H2. cbn [from_option id].
  rewrite (newSet_id shared) by done.
  rewrite filter_Set_has, filter_none; [reflexivity|].
  intros url Hin Hout. apply (proj1 (elem_of_newSet _ _)) in Hout.
  exact (disjoint url Hin Hout).
Qed.

Lemma scenario_matrix :
  calculateUrlOverlap serpData =
  [ (str "A|B", full); (str "A|C", full); (str "B|C", full) ].
Proof.
  unfold calculateUrlOverlap.
  change (combinations (Map_keys serpData)) with
    [ (str "A", str "B"); (str "A", str "C"); (str "A", str "D");
      (str "B", str "C"); (str "B", str "D"); (str "C", str "D") ].
  cbn [fold_left].
  rewrite (overlapPair_same _ (str "A") (str "B")) by reflexivity.
  rewrite (overlapPair_same _ (str "A") (str "C")) by reflexivity.
  rewrite (overlapPair_other _ (str "A") (str "D")) by reflexivity.
  rewrite (overlapPair_same _ (str "B") (str "C")) by reflexivity.
  rewrite (overlapPair_other _ (str "B") (str "D")) by reflexivity.
  rewrite (overlapPair_other _ (str "C") (str "D")) by reflexivity.
  reflexivity.
Qed.

(** C8.  With A, B and C ranking the same five distinct URLs and D
    ranking URLs that are none of these (five of them or any other
    number), the matrix has exactly the three entries A-B, A-C and B-C,
    each with the five shared URLs, count 5 and score 1, and with
    threshold 3 the result is the cluster [{A, B, C}] followed by the
    singleton [{D}]. *)
Theorem abcd_scenario :
  let overlapMatrix := calculateUrlOverlap (Examples.scenario shared other) in
  Map_keys overlapMatrix = [str "A|B"; str "A|C"; str "B|C"]
  ∧ Forall (λ e, sharedUrls e.2 = shared ∧ count e.2 = 5%nat
                 ∧ (overlapScore e.2 == 1)%Q)
      (Map_entries overlapMatrix)
  ∧ clusterKeywords (Examples.scenario shared other) overlapMatrix 3 =
      [ [Some (str "A"); Some (str "B"); Some (str "C")]; [Some (str "D")] ].
Proof.
  intros overlapMatrix. subst overlapMatrix.
  rewrite scenario_matrix. split_and!.
  - reflexivity.
  - repeat constructor.
  - vm_compute. reflexivity.
Qed.
End Scenario.

Lemma abcd_scenario_witness :
  clusterKeywords Examples.abcd (calculateUrlOverlap Examples.abcd) 3 =
    [ [Some (str "A"); Some (str "B"); Some (str "C")]; [Some (str "D")] ].
Proof.
  refine (proj2 (proj2 (abcd_scenario
    (Examples.u <$> ["1"; "2"; "3"; "4"; "5"]%string)
    (Examples.u <$> ["6"; "7"; "8"; "9"; "10"]%string) _ _ _))).
  - by_compute.
  - reflexivity.
  - apply (proj1 (Forall_forall _ _)). by_compute.
Defined.

(** ** Slug generation *)

Lemma generateSlug_eq (text : jsstring) : generateSlug text = take 60 (collapsed text).
Proof. reflexivity. Qed.

Lemma elem_of_split (sep : ascii) (s p : jsstring) (c : ascii) :
  p ∈ split sep s → c ∈ p → c ∈ s ∧ c ≠ sep.
Proof.
  revert p. induction s as [|x s IH]; intros p; cbn [split].
  - intros ->%list_elem_of_singleton Hc. by apply elem_of_nil in Hc.
  - destruct (decide (x = sep)) as [->|Hne].
    + intros [->|Hp]%elem_of_cons Hc; [by apply elem_of_nil in Hc|].
      destruct (IH p Hp Hc). split; [by right|done].
    + pose proof (split_nonempty sep s) as Hs.
      destruct (split sep s) as [|w ws]; [done|].
      intros [->|Hp]%elem_of_cons Hc.
      * apply elem_of_cons in Hc as [->|Hc]; [split; [by left|done]|].
        destruct (IH w) as [? ?]; [by left|done|]. split; [by right|done].
      * destruct (IH p) as [? ?]; [by right|done|]. split; [by right|done].
Qed.

Lemma elem_of_join (sep : jsstring) (ps : list jsstring) (c : ascii) :
  c ∈ join sep ps → c ∈ sep ∨ ∃ p, p ∈ ps ∧ c ∈ p.
Proof.
  induction ps as [|p ps IH]; cbn [join]; [by intros ?%elem_of_nil|].
  destruct ps as [|q ps].
  - intros Hc. right. exists p. split; [by left|done].
  - rewrite !elem_of_app. intros [Hc|[Hc|Hc]].
    + right. exists p. split; [by left|done].
    + by left.
    + destruct (IH Hc) as [?|(p' & Hp' & ?)]; [by left|].
      right. exists p'. split; [by right|done].
Qed.

Lemma split_join (sep : ascii) (s : jsstring) : join [sep] (split sep s) = s.
Proof.
  induction s as [|c s IH]; cbn [split]; [done|].
  pose proof (split_nonempty sep s) as Hs.
  destruct (decide (c = sep)) as [->|Hne].
  - destruct (split sep s) as [|w ws]; [done|]. cbn [join app] in *. by rewrite IH.
  - destruct (split sep s) as [|w ws]; [done|]. cbn [join] in *.
    destruct ws; cbn [app] in *; by rewrite <- IH.
Qed.

Lemma hyphensApart_weaken (s : jsstring) :
  hyphensApart true s = true → hyphensApart false s = true.
Proof.
  destruct s as [|c s]; cbn; [done|]. by destruct (decide (c = "-"%char)).
Qed.

Lemma hyphensApart_take (n : nat) (prev : bool) (s : jsstring) :
  hyphensApart prev s = true → hyphensApart prev (take n s) = true.
Proof.
  revert n prev. induction s as [|c s IH]; intros [|n] prev; cbn; try done.
  destruct (decide (c = "-"%char)); [|apply IH].
  intros [-> ?]%andb_true_iff. cbn. by apply IH.
Qed.

(** A non-empty piece without hyphen resets the state. *)
Lemma hyphensApart_piece (prev : bool) (p rest : jsstring) :
  p ≠ [] → "-"%char ∉ p →
  hyphensApart prev (p ++ rest) = hyphensApart false rest.
Proof.
  revert prev. induction p as [|c p IH]; intros prev Hne Hp; [done|].
  apply not_elem_of_cons in Hp as [Hc Hp]. cbn. rewrite decide_False by done.
  destruct p as [|c' p]; [done|]. by apply IH.
Qed.

Lemma hyphensApart_join (ps : list jsstring) :
  Forall (λ p, p ≠ [] ∧ "-"%char ∉ p) ps →
  hyphensApart true (join ["-"%char] ps) = true.
Proof.
  induction 1 as [|p ps [Hne Hp] Hps IH]; [done|]. cbn [join].
  destruct ps as [|q ps].
  - rewrite <- (app_nil_r p). by rewrite hyphensApart_piece.
  - rewrite hyphensApart_piece by done. cbn [app hyphensApart].
    rewrite decide_True by done. exact IH.
Qed.

Lemma nonEmpty_true (s : jsstring) : Is_true (nonEmpty s) ↔ s ≠ [].
Proof. by destruct s. Qed.

Lemma collapsed_hyphensApart (text : jsstring) :
  hyphensApart true (collapsed text) = true.
Proof.
  apply hyphensApart_join, Forall_forall.
  intros p [Hne Hp]%list_elem_of_filter. split; [by apply nonEmpty_true|].
  intros Hc. by destruct (elem_of_split _ _ _ _ Hp Hc).
Qed.

Lemma collapsed_chars (text : jsstring) :
  Forall (λ c, isSlugChar c = true) (collapsed text).
Proof.
  apply Forall_forall. intros c [Hc|(p & Hp & Hc)]%elem_of_join.
  - by apply list_elem_of_singleton in Hc as ->.
  - apply list_elem_of_filter in Hp as [_ Hp].
    destruct (elem_of_split _ _ _ _ Hp Hc) as [Hin _].
    apply list_elem_of_filter in Hin as [Hslug _]. by apply Is_true_true.
Qed.

Lemma hyphensApart_head (s : jsstring) :
  hyphensApart true s = true → head s ≠ Some "-"%char.
Proof.
  destruct s as [|c s]; cbn; [done|].
  destruct (decide (c = "-"%char)); [done|]. by intros _ [= ->].
Qed.

Lemma hyphensApart_lookup (prev : bool) (s : jsstring) (i : nat) :
  hyphensApart prev s = true →
  s !! i = Some "-"%char → s !! S i ≠ Some "-"%char.
Proof.
  revert prev i. induction s as [|c s IH]; intros prev i; [done|]. cbn [hyphensApart].
  destruct i as [|i].
  - cbn. intros Hok [= ->]. rewrite decide_True in Hok by done.
    apply andb_true_iff in Hok as [_ Hok].
    destruct s as [|c s]; [done|]. cbn in *.
    destruct (decide (c = "-"%char)); [done|]. by intros [= ->].
  - cbn [lookup list_lookup]. destruct (decide (c = "-"%char)).
    + intros [_ Hok]%andb_true_iff. by apply (IH true).
    + by apply (IH false).
Qed.

Lemma generateSlug_length (text : jsstring) : (length (generateSlug text) ≤ 60)%nat.
Proof. rewrite generateSlug_eq, length_take. lia. Qed.

Lemma generateSlug_chars (text : jsstring) :
  Forall (λ c, isSlugChar c = true) (generateSlug text).
Proof. rewrite generateSlug_eq. apply Forall_take, collapsed_chars. Qed.

Lemma generateSlug_hyphensApart (text : jsstring) :
  hyphensApart true (generateSlug text) = true.
Proof.
  rewrite generateSlug_eq. apply hyphensApart_take, collapsed_hyphensApart.
Qed.

(** X1.  The part of C5 that holds on every input: a slug has at most 60
    characters, all of them in [[a-z0-9-]], no hyphen in front and no two
    hyphens in a row. *)
Theorem generateSlug_shape (text : jsstring) :
  (length (generateSlug text) ≤ 60)%nat
  ∧ Forall (λ c, isSlugChar c = true) (generateSlug text)
  ∧ head (generateSlug text) ≠ Some "-"%char
  ∧ (∀ i, generateSlug text !! i = Some "-"%char →
          generateSlug text !! S i ≠ Some "-"%char).
Proof.
  split_and!.
  - apply generateSlug_length.
  - apply generateSlug_chars.
  - apply hyphensApart_head, generateSlug_hyphensApart.
  - intros i. apply (hyphensApart_lookup true), generateSlug_hyphensApart.
Qed.

(** C5 at the failing input.  Fifty-nine letters, a space and a letter:
    the hyphen the space turns into is character 60, the cut falls right
    after it, and the slug ends in a hyphen. *)
Theorem generateSlug_trailing_hyphen :
  generateSlug Examples.longKeyword = replicate 59 "a"%char ++ ["-"%char]
  ∧ last (generateSlug Examples.longKeyword) = Some "-"%char.
Proof. split; vm_compute; reflexivity. Qed.

(** C4 at the failing input.  The slug of the same text ends in a hyphen,
    which a second application removes: the two results differ. *)
Theorem generateSlug_twice_differs :
  generateSlug Examples.longKeyword = replicate 59 "a"%char ++ ["-"%char]
  ∧ generateSlug (generateSlug Examples.longKeyword) = replicate 59 "a"%char
  ∧ generateSlug (generateSlug Examples.longKeyword) ≠ generateSlug Examples.longKeyword.
Proof. split_and!; [vm_compute; reflexivity..|by_compute]. Qed.

(** *** When a second application changes nothing *)

Lemma slugChar_lower (c : ascii) : isSlugChar c = true → lowerChar c = c.
Proof.
  intros Hc. unfold lowerChar.
  destruct (in_range 65 90 c || in_range 192 222 c && negb (code c =? 215)%N) eqn:E;
    [|done].
  exfalso. unfold isSlugChar, in_range in *.
  rewrite !orb_true_iff, !andb_true_iff, !N.leb_le, N.eqb_eq in Hc.
  rewrite orb_true_iff, !andb_true_iff, !N.leb_le in E. lia.
Qed.

Lemma slugChar_not_space (c : ascii) : isSlugChar c = true → c ≠ " "%char.
Proof. intros Hc ->. vm_compute in Hc. discriminate. Qed.

Lemma slugChars_fixed (s : jsstring) :
  Forall (λ c, isSlugChar c = true) s →
  filter (λ c, isSlugChar c) (replaceSpaces (toLowerCase s)) = s.
Proof.
  intros Hs. unfold replaceSpaces, toLowerCase.
  assert (((λ c, if decide (c = " "%char) then "-"%char else c) <$> (lowerChar <$> s)) = s)
    as ->.
  { induction Hs as [|c s Hc Hs IH]; [done|]. rewrite !fmap_cons, IH.
    rewrite slugChar_lower by done.
    rewrite decide_False; [done|]. by apply slugChar_not_space. }
  apply filter_all. rewrite Forall_forall in Hs.
  intros c Hc. apply Is_true_true. by apply Hs.
Qed.

(** Without a hyphen in front, at the end or next to another, no piece
    between hyphens is empty. *)
Lemma split_pieces_nonEmpty (s : jsstring) :
  s ≠ [] → hyphensApart false s = true → last s ≠ Some "-"%char →
  Forall (λ p, p ≠ []) (tail (split "-"%char s))
  ∧ (head s ≠ Some "-"%char → Forall (λ p, p ≠ []) (split "-"%char s)).
Proof.
  induction s as [|c s IH]; [done|]. intros _ Hok Hlast. cbn [split].
  cbn [hyphensApart] in Hok. destruct (decide (c = "-"%char)) as [->|Hc].
  - cbn [negb andb] in Hok. destruct s as [|c' s]; [done|].
    cbn [tail]. split; [|done].
    destruct IH as [_ IH]; [done|by apply hyphensApart_weaken|done|].
    apply IH. by apply hyphensApart_head.
  - destruct s as [|c' s].
    + cbn. split; [done|]. intros _. by repeat constructor.
    + destruct IH as [IH _]; [done|done|done|].
      destruct (split "-"%char (c' :: s)) as [|w ws]; cbn [tail] in *.
      * split; [done|]. intros _. by repeat constructor.
      * split; [done|]. intros _. by constructor.
Qed.

Lemma last_join (ps : list jsstring) :
  Forall (λ p, p ≠ [] ∧ "-"%char ∉ p) ps → last (join ["-"%char] ps) ≠ Some "-"%char.
Proof.
  induction 1 as [|p ps [Hne Hp] Hps IH]; [done|]. cbn [join].
  destruct ps as [|q ps].
  - intros Hlast. apply Hp. by apply last_Some_elem_of.
  - rewrite !last_app. destruct (last (join ["-"%char] (q :: ps))) eqn:E; [done|].
    apply last_None in E. apply Forall_cons in Hps as [[Hq _] _].
    cbn [join] in E. destruct ps; [done|]. by destruct q.
Qed.

(** The text before truncation never ends in a hyphen. *)
Lemma collapsed_last (text : jsstring) : last (collapsed text) ≠ Some "-"%char.
Proof.
  apply last_join, Forall_forall.
  intros p [Hne Hp]%list_elem_of_filter. split; [by apply nonEmpty_true|].
  intros Hc. by destruct (elem_of_split _ _ _ _ Hp Hc).
Qed.

(** X2.  The slug of a text whose collapsed form (lowercased, spaces to
    hyphens, foreign characters dropped, empty segments removed) fits in 60
    characters is that form, and does not end in a hyphen. *)
Theorem generateSlug_short (text : jsstring) :
  (length (collapsed text) ≤ 60)%nat →
  generateSlug text = collapsed text ∧ last (generateSlug text) ≠ Some "-"%char.
Proof.
  intros Hlen. rewrite generateSlug_eq, take_ge by done.
  split; [done|apply collapsed_last].
Qed.

Lemma generateSlug_short_witness :
  (length (collapsed (str "hello   world")) ≤ 60)%nat
  ∧ generateSlug (str "hello   world") = collapsed (str "hello   world").
Proof.
  assert (length (collapsed (str "hello   world")) ≤ 60)%nat as Hlen
    by (vm_compute; lia).
  split; [exact Hlen|].
  exact (proj1 (generateSlug_short (str "hello   world") Hlen)).
Defined.

(** X3.  [generateSlug] leaves a slug that does not end in a hyphen as it
    is: on such inputs a second application changes nothing. *)
Theorem generateSlug_idempotent_without_trailing_hyphen (text : jsstring) :
  last (generateSlug text) ≠ Some "-"%char →
  generateSlug (generateSlug text) = generateSlug text.
Proof.
  intros Hlast.
  pose proof (generateSlug_length text) as Hlen.
  pose proof (generateSlug_chars text) as Hchars.
  pose proof (generateSlug_hyphensApart text) as Hok.
  set (r := generateSlug text) in *.
  rewrite (generateSlug_eq r). unfold collapsed. rewrite slugChars_fixed by done.
  destruct (decide (r = [])) as [->|Hne]; [done|].
  destruct (split_pieces_nonEmpty r Hne (hyphensApart_weaken _ Hok) Hlast) as [_ Hall].
  rewrite filter_all.
  - rewrite split_join. by apply take_ge.
  - specialize (Hall (hyphensApart_head _ Hok)). rewrite Forall_forall in Hall.
    intros p Hp. apply nonEmpty_true. by apply Hall.
Qed.

Lemma generateSlug_idempotent_without_trailing_hyphen_witness :
  last (generateSlug (str "Best Running Shoes")) ≠ Some "-"%char
  ∧ generateSlug (generateSlug (str "Best Running Shoes")) =
    generateSlug (str "Best Running Shoes").
Proof.
  assert (last (generateSlug (str "Best Running Shoes")) ≠ Some "-"%char) as Hlast
    by by_compute.
  split; [exact Hlast|].
  exact (generateSlug_idempotent_without_trailing_hyphen (str "Best Running Shoes") Hlast).
Defined.

(** The slugs the tests of the repository expect. *)
Theorem generateSlug_tests :
  generateSlug (str "Best Running Shoes") = str "best-running-shoes"
  ∧ generateSlug (str "top 10 products!") = str "top-10-products"
  ∧ generateSlug (str "hello   world") = str "hello-world"
  ∧ generateSlug (str "special@chars#here") = str "specialcharshere".
Proof. split_and!; vm_compute; reflexivity. Qed.

(** ** Further facts about the overlap engine *)

(** X4.  [combinations] yields each unordered pair of positions once:
    [n (n - 1) / 2] pairs for [n] items. *)
Theorem combinations_length {T} (items : list T) :
  (2 * length (combinations items) = length items * (length items - 1))%nat.
Proof.
  induction items as [|x rest IH]; [done|]. cbn [combinations].
  rewrite length_app, length_fmap. cbn [length]. nia.
Qed.

Lemma fold_overlapPair_NoDup (serpData : SerpData) (pairs : list (jsstring * jsstring))
    (om : OverlapMatrix) :
  NoDup (Map_keys om) → NoDup (Map_keys (fold_left (overlapPair serpData) pairs om)).
Proof.
  revert om. induction pairs as [|[kw1 kw2] rest IH]; intros om Hom; [done|].
  cbn [fold_left]. apply IH. unfold overlapPair.
  destruct (0 <? _)%nat; [by apply Map_set_NoDup|done].
Qed.

(** The matrix has one entry per key, and the map [loadSerpData]
    builds one entry per keyword. *)
Theorem maps_have_unique_keys (serpData : SerpData) (records : list Row) :
  NoDup (Map_keys (calculateUrlOverlap serpData))
  ∧ NoDup (Map_keys (loadSerpData records)).
Proof.
  split.
  - apply fold_overlapPair_NoDup, NoDup_nil_2.
  - apply loadSerpData_NoDup.
Qed.

(** Two keywords that share exactly two URLs stay apart under the
    default threshold: the matrix records their entry with count 2, and
    the result is the two singletons. *)
Theorem two_shared_urls_scenario :
  let overlapMatrix := calculateUrlOverlap Examples.twoShared in
  Map_keys overlapMatrix = [str "A|B"]
  ∧ Forall (λ e, count e.2 = 2%nat) (Map_entries overlapMatrix)
  ∧ clusterKeywordsDefault Examples.twoShared overlapMatrix =
      [ [Some (str "A")]; [Some (str "B")] ].
Proof.
  split_and!; [vm_compute; reflexivity|vm_compute; repeat constructor|vm_compute; reflexivity].
Qed.

(** ** Lookup in the overlap matrix *)

Lemma overlapPair_pairEntry (serpData : SerpData) (om : OverlapMatrix)
    (kw1 kw2 : jsstring) :
  overlapPair serpData om (kw1, kw2) =
  if (0 <? count (pairEntry serpData kw1 kw2))%nat
  then Map_set om (pairKey kw1 kw2) (pairEntry serpData kw1 kw2)
  else om.
Proof. reflexivity. Qed.

Lemma pairEntry_count (serpData : SerpData) (kw1 kw2 : jsstring) :
  count (pairEntry serpData kw1 kw2) = sharedCount serpData kw1 kw2.
Proof. unfold pairEntry, sharedCount. cbn [count]. by rewrite filter_Set_has. Qed.

(** Two keywords free of the separator are determined by their key. *)
Lemma pairKey_inj (a b c d : jsstring) :
  "|"%char ∉ a → "|"%char ∉ b → "|"%char ∉ c → "|"%char ∉ d →
  pairKey a b = pairKey c d → a = c ∧ b = d.
Proof.
  intros Ha Hb Hc Hd Heq.
  pose proof (splitKey_pairKey a b Ha Hb) as H1.
  rewrite Heq, splitKey_pairKey in H1 by done. by injection H1 as -> ->.
Qed.

(** When every pair written under key [k] is the pair [p], the entry found
    under [k] after the loop is the one of [p], if [p] was visited and has
    a shared URL, and the one present before otherwise. *)
Lemma Map_get_fold_overlapPair (serpData : SerpData) (k : jsstring)
    (p : jsstring * jsstring) (pairs : list (jsstring * jsstring)) (om : OverlapMatrix) :
  (∀ q, q ∈ pairs → pairKey q.1 q.2 = k → q = p) →
  Map_get (fold_left (overlapPair serpData) pairs om) k =
  if decide (p ∈ pairs ∧ pairKey p.1 p.2 = k
             ∧ (0 < count (pairEntry serpData p.1 p.2))%nat)
  then Some (pairEntry serpData p.1 p.2)
  else Map_get om k.
Proof.
  revert om. induction pairs as [|[kw1 kw2] rest IH]; intros om Hpairs; cbn [fold_left].
  - rewrite decide_False; [done|]. intros [Hin _]. by apply elem_of_nil in Hin.
  - rewrite IH by (intros q Hq; apply Hpairs; by right).
    rewrite overlapPair_pairEntry.
    destruct (decide (p ∈ rest ∧ pairKey p.1 p.2 = k
                      ∧ (0 < count (pairEntry serpData p.1 p.2))%nat))
      as [(Hin & Hk & Hpos)|Hrest].
    + rewrite decide_True; [done|]. split_and!; [by right|done|done].
    + destruct (Nat.ltb_spec 0 (count (pairEntry serpData kw1 kw2))) as [Hpos|Hzero].
      * rewrite Map_get_set. destruct (decide (pairKey kw1 kw2 = k)) as [Hk|Hk].
        -- assert ((kw1, kw2) = p) as Hp by (apply Hpairs; [by left|done]).
           subst p. rewrite decide_True; [done|]. split_and!; [by left|done|done].
        -- rewrite decide_False; [done|].
           intros ([->|Hin]%elem_of_cons & Hk' & Hpos'); [done|]. by apply Hrest.
      * rewrite decide_False; [done|].
        intros ([->|Hin]%elem_of_cons & Hk' & Hpos'); [cbn [fst snd] in Hpos'; lia|].
        by apply Hrest.
Qed.

(** X6.  With distinct keywords free of [|], the matrix is complete and
    exact: for a keyword [kw1] that comes before [kw2] in the map, looking
    up the key [kw1|kw2] finds nothing when the two share no URL, and
    otherwise finds the entry with their shared URLs (in the order of
    [kw1]'s list), their number and the score. *)
Theorem calculateUrlOverlap_lookup (serpData : SerpData) (kw1 kw2 : jsstring) :
  NoDup (Map_keys serpData) →
  (∀ kw, kw ∈ Map_keys serpData → "|"%char ∉ kw) →
  (kw1, kw2) ∈ combinations (Map_keys serpData) →
  Map_get (calculateUrlOverlap serpData) (pairKey kw1 kw2) =
  if decide (sharedCount serpData kw1 kw2 = 0%nat) then None
  else Some (pairEntry serpData kw1 kw2).
Proof.
  intros Hnd Hsep Hpair. unfold calculateUrlOverlap.
  rewrite (Map_get_fold_overlapPair serpData _ (kw1, kw2)).
  - cbn [fst snd Map_get]. rewrite pairEntry_count.
    destruct (decide (sharedCount serpData kw1 kw2 = 0%nat)) as [Hz|Hnz].
    + rewrite decide_False; [done|]. lia.
    + rewrite decide_True; [done|]. split_and!; [done|done|lia].
  - intros [a b] Hq Hk. cbn [fst snd] in Hk.
    pose proof (elem_of_combinations _ _ _ Hq) as [Ha Hb].
    pose proof (elem_of_combinations _ _ _ Hpair) as [H1 H2].
    apply pairKey_inj in Hk as [-> ->]; auto.
Qed.

Lemma calculateUrlOverlap_lookup_witness :
  Map_get (calculateUrlOverlap Examples.twoShared) (str "A|B") =
  Some (pairEntry Examples.twoShared (str "A") (str "B")).
Proof.
  assert (NoDup (Map_keys Examples.twoShared)) as Hnd by by_compute.
  assert (∀ kw, kw ∈ Map_keys Examples.twoShared → "|"%char ∉ kw) as Hsep.
  { apply (proj1 (Forall_forall _ _)). by_compute. }
  assert ((str "A", str "B") ∈ combinations (Map_keys Examples.twoShared)) as Hpair
    by by_compute.
  exact (calculateUrlOverlap_lookup Examples.twoShared (str "A") (str "B") Hnd Hsep Hpair).
Defined.

(** ** What the clustering guarantees *)

Lemma fold_joinEntry_grows (pairs : list (jsstring * OverlapData))
    (st : GreedyState) (j : nat) (c : Cluster) :
  clusters st !! j = Some c →
  ∃ c', clusters (fold_left joinEntry pairs st) !! j = Some c' ∧ c ⊆ c'.
Proof.
  revert st c. induction pairs as [|e rest IH]; intros st c Hj; cbn [fold_left].
  - by exists c.
  - destruct (joinPair_grows st (splitKey e.1).1 (splitKey e.1).2 j c Hj)
      as (c1 & Hc1 & Hsub).
    destruct (IH _ _ Hc1) as (c2 & Hc2 & Hsub2).
    exists c2. split; [done|]. by transitivity c1.
Qed.

(** Right after its step, the two names of a pair sit in one cluster. *)
Lemma joinPair_together (st : GreedyState) (kw1 kw2 : member) :
  ∃ j c, clusters (joinPair st kw1 kw2) !! j = Some c ∧ kw1 ∈ c ∧ kw2 ∈ c.
Proof.
  unfold joinPair. cbn [clusters].
  destruct (findClusterIdx (clusters st) kw1 kw2) as [i|] eqn:Hfind.
  - apply findClusterIdx_Some in Hfind as (c & Hi & _).
    exists i, (Set_add (Set_add c kw1) kw2). split_and!.
    + by rewrite list_lookup_alter_eq, Hi.
    + apply elem_of_add_pair. auto.
    + apply elem_of_add_pair. auto.
  - exists (length (clusters st)), (newSet [kw1; kw2]). split_and!.
    + by rewrite lookup_app_r, Nat.sub_diag.
    + apply elem_of_new_pair. auto.
    + apply elem_of_new_pair. auto.
Qed.

Lemma fold_joinEntry_together (pairs : list (jsstring * OverlapData))
    (st : GreedyState) (e : jsstring * OverlapData) :
  e ∈ pairs →
  ∃ c, c ∈ clusters (fold_left joinEntry pairs st)
       ∧ (splitKey e.1).1 ∈ c ∧ (splitKey e.1).2 ∈ c.
Proof.
  revert st. induction pairs as [|e' rest IH]; intros st; [by intros ?%elem_of_nil|].
  cbn [fold_left]. intros [->|Hin]%elem_of_cons; [|by apply IH].
  destruct (joinPair_together st (splitKey e'.1).1 (splitKey e'.1).2)
    as (j & c & Hj & H1 & H2).
  destruct (fold_joinEntry_grows rest _ j c Hj) as (c' & Hc' & Hsub).
  exists c'. split_and!; [by eapply list_elem_of_lookup_2|by apply Hsub..].
Qed.

Lemma Map_get_elem_of {V} (m : JsMap V) (k : jsstring) (v : V) :
  Map_get m k = Some v → (k, v) ∈ Map_entries m.
Proof.
  unfold Map_entries. induction m as [|[k' v'] m IH]; cbn [Map_get]; [done|].
  destruct (decide (k' = k)) as [->|Hne].
  - intros [= ->]. by left.
  - intros Hget. right. by apply IH.
Qed.

(** Two distinct items are paired in one order or the other. *)
Lemma combinations_total {T} (items : list T) (a b : T) :
  a ∈ items → b ∈ items → a ≠ b →
  (a, b) ∈ combinations items ∨ (b, a) ∈ combinations items.
Proof.
  induction items as [|x rest IH]; [by intros ?%elem_of_nil|].
  cbn [combinations]. rewrite !elem_of_app, !list_elem_of_fmap.
  intros [->|Ha]%elem_of_cons [->|Hb]%elem_of_cons Hne.
  - done.
  - left. left. by exists b.
  - right. left. by exists a.
  - destruct (IH Ha Hb Hne); auto.
Qed.

(** Two sets have as many elements in common counted from either side. *)
Lemma sharedCount_sym (serpData : SerpData) (kw1 kw2 : jsstring) :
  sharedCount serpData kw1 kw2 = sharedCount serpData kw2 kw1.
Proof.
  unfold sharedCount. apply Permutation_length, NoDup_Permutation.
  - apply NoDup_filter, newSet_NoDup.
  - apply NoDup_filter, newSet_NoDup.
  - intros url. rewrite !list_elem_of_filter. tauto.
Qed.

(** C3.  [clusterKeywords] takes the entries in descending order of count,
    entries of equal count in the order the matrix lists them; its loop runs
    over the entries before the first one below its own [minOverlap] and
    stops there for good, whatever follows: the clusters it returns are
    those of the loop body folded over that prefix, which holds exactly the
    entries whose count reaches [minOverlap], followed by the singletons.
    So the two names of every entry that reaches [minOverlap] sit together
    in a returned cluster, and each member of a cluster of two or more
    keywords was put there by an entry whose count reaches [minOverlap].
    The threshold is 3 when the caller gives none. *)
Theorem clusterKeywords_sorted_early_exit (serpData : SerpData)
    (overlapMatrix : OverlapMatrix) (minOverlap : Z) :
  let sortedPairs := sortBy compareCount (Map_entries overlapMatrix) in
  let processed := takeWhile (qualifies minOverlap) sortedPairs in
  sortedPairs ≡ₚ Map_entries overlapMatrix
  ∧ StronglySorted (λ a b, (count b.2 ≤ count a.2)%nat) sortedPairs
  ∧ (∀ n, filter (λ e, count e.2 = n) sortedPairs =
          filter (λ e, count e.2 = n) (Map_entries overlapMatrix))
  ∧ greedyPass overlapMatrix minOverlap = fold_left joinEntry processed initialState
  ∧ (∀ before e after st,
       Forall (λ p, (minOverlap ≤ Z.of_nat (count p.2))%Z) before →
       (Z.of_nat (count e.2) < minOverlap)%Z →
       greedyLoop minOverlap (before ++ e :: after) st = fold_left joinEntry before st)
  ∧ (∀ c x,
       c ∈ clusterKeywords serpData overlapMatrix minOverlap →
       (2 ≤ length c)%nat → x ∈ c →
       ∃ key data, (key, data) ∈ Map_entries overlapMatrix
         ∧ (minOverlap ≤ Z.of_nat (count data))%Z
         ∧ (x = (splitKey key).1 ∨ x = (splitKey key).2))
  ∧ clusterKeywordsDefault serpData overlapMatrix =
      clusterKeywords serpData overlapMatrix 3
  ∧ clusterKeywords serpData overlapMatrix minOverlap =
      (let st := fold_left joinEntry processed initialState in
       clusters st ++
       ((λ kw, [Some kw]) <$> filter (λ kw, Some kw ∉ assigned st) (Map_keys serpData)))
  ∧ (∀ e, e ∈ processed ↔
          e ∈ Map_entries overlapMatrix ∧ (minOverlap ≤ Z.of_nat (count e.2))%Z)
  ∧ (∃ rest, sortedPairs = processed ++ rest
       ∧ ∀ e, e ∈ rest → (Z.of_nat (count e.2) < minOverlap)%Z)
  ∧ (∀ key data,
       (key, data) ∈ Map_entries overlapMatrix →
       (minOverlap ≤ Z.of_nat (count data))%Z →
       ∃ c, c ∈ clusterKeywords serpData overlapMatrix minOverlap
            ∧ (splitKey key).1 ∈ c ∧ (splitKey key).2 ∈ c).
Proof.
  intros sortedPairs processed. split_and!.
  - apply sortBy_Permutation.
  - apply sortBy_sorted.
  - intros n. apply sortBy_stable.
  - apply greedyPass_fold.
  - intros before e after st. apply greedyLoop_break.
  - intros c x Hc Hlen Hx. eapply greedyPass_members; [|done].
    by eapply clusterKeywords_multi.
  - reflexivity.
  - rewrite clusterKeywords_eq, greedyPass_fold. reflexivity.
  - intros e. apply elem_of_processedPairs.
  - exists (dropWhile (qualifies minOverlap) sortedPairs). split.
    + subst processed. apply takeWhile_dropWhile.
    + intros e. apply dropWhile_sorted_below, sortBy_sorted.
  - intros key data He Hge.
    assert ((key, data) ∈ processedPairs overlapMatrix minOverlap) as Hin.
    { by apply elem_of_processedPairs. }
    destruct (fold_joinEntry_together _ initialState _ Hin) as (c & Hc & H1 & H2).
    exists c. split; [|done].
    rewrite clusterKeywords_eq, greedyPass_fold. apply elem_of_app. by left.
Qed.

(** X7.  The two names split from any entry of the matrix whose count
    reaches the threshold are members of one common cluster of the result.
    So, for a matrix computed from a map of distinct keywords free of [|],
    any two keywords that share at least [minOverlap] URLs (and at least
    one) are in a common cluster, whichever comes first in the map. *)
Theorem clusterKeywords_joins_qualifying_pairs (serpData : SerpData) (minOverlap : Z) :
  (∀ (overlapMatrix : OverlapMatrix) key data,
     (key, data) ∈ Map_entries overlapMatrix →
     (minOverlap ≤ Z.of_nat (count data))%Z →
     ∃ c, c ∈ clusterKeywords serpData overlapMatrix minOverlap
          ∧ (splitKey key).1 ∈ c ∧ (splitKey key).2 ∈ c)
  ∧ (NoDup (Map_keys serpData) →
     (∀ kw, kw ∈ Map_keys serpData → "|"%char ∉ kw) →
     ∀ kw1 kw2,
       kw1 ∈ Map_keys serpData → kw2 ∈ Map_keys serpData → kw1 ≠ kw2 →
       (1 ≤ sharedCount serpData kw1 kw2)%nat →
       (minOverlap ≤ Z.of_nat (sharedCount serpData kw1 kw2))%Z →
       ∃ c, c ∈ clusterKeywords serpData (calculateUrlOverlap serpData) minOverlap
            ∧ Some kw1 ∈ c ∧ Some kw2 ∈ c).
Proof.
  assert (Hgen : ∀ (overlapMatrix : OverlapMatrix) key data,
     (key, data) ∈ Map_entries overlapMatrix →
     (minOverlap ≤ Z.of_nat (count data))%Z →
     ∃ c, c ∈ clusterKeywords serpData overlapMatrix minOverlap
          ∧ (splitKey key).1 ∈ c ∧ (splitKey key).2 ∈ c).
  { intros overlapMatrix key data Hin Hcount.
    assert ((key, data) ∈ processedPairs overlapMatrix minOverlap) as Hproc
      by by apply elem_of_processedPairs.
    destruct (fold_joinEntry_together _ initialState _ Hproc) as (c & Hc & H1 & H2).
    exists c. split_and!; [|done..].
    rewrite clusterKeywords_eq, greedyPass_fold. apply elem_of_app. by left. }
  split; [exact Hgen|].
  intros Hnd Hsep kw1 kw2 Hk1 Hk2 Hne Hone Hmin.
  assert (∀ a b, (a, b) ∈ combinations (Map_keys serpData) →
            (1 ≤ sharedCount serpData a b)%nat →
            (minOverlap ≤ Z.of_nat (sharedCount serpData a b))%Z →
            ∃ c, c ∈ clusterKeywords serpData (calculateUrlOverlap serpData) minOverlap
                 ∧ Some a ∈ c ∧ Some b ∈ c) as Hordered.
  { intros a b Hpair Hone' Hmin'.
    pose proof (calculateUrlOverlap_lookup serpData a b Hnd Hsep Hpair) as Hget.
    rewrite decide_False in Hget by lia.
    pose proof (elem_of_combinations _ _ _ Hpair) as [Ha Hb].
    destruct (Hgen (calculateUrlOverlap serpData) (pairKey a b) (pairEntry serpData a b))
      as (c & Hc & H1 & H2).
    - by apply Map_get_elem_of.
    - by rewrite pairEntry_count.
    - rewrite splitKey_pairKey in H1, H2 by auto. by exists c. }
  destruct (combinations_total (Map_keys serpData) kw1 kw2 Hk1 Hk2 Hne) as [Hpair|Hpair].
  - by apply Hordered.
  - rewrite (sharedCount_sym serpData kw1 kw2) in Hone, Hmin.
    destruct (Hordered kw2 kw1 Hpair Hone Hmin) as (c & Hc & H2 & H1). by exists c.
Qed.

(** When no entry reaches the threshold the loop does nothing. *)
Lemma processedPairs_nil (overlapMatrix : OverlapMatrix) (minOverlap : Z) :
  (∀ e, e ∈ Map_entries overlapMatrix → (Z.of_nat (count e.2) < minOverlap)%Z) →
  processedPairs overlapMatrix minOverlap = [].
Proof.
  intros Hlow. apply elem_of_nil_inv. intros e [Hin Hge]%elem_of_processedPairs.
  specialize (Hlow e Hin). lia.
Qed.

Lemma clusterKeywords_all_singletons (serpData : SerpData)
    (overlapMatrix : OverlapMatrix) (minOverlap : Z) :
  (∀ e, e ∈ Map_entries overlapMatrix → (Z.of_nat (count e.2) < minOverlap)%Z) →
  clusterKeywords serpData overlapMatrix minOverlap =
  (λ kw, [Some kw]) <$> Map_keys serpData.
Proof.
  intros Hlow. rewrite clusterKeywords_eq, greedyPass_fold, processedPairs_nil by done.
  cbn [fold_left initialState clusters assigned app]. unfold unassigned.
  rewrite filter_all; [done|]. intros kw _. apply not_elem_of_nil.
Qed.

(** *** No more clusters than keywords *)

Lemma filter_length_split {A} (P : A → Prop) `{∀ x, Decision (P x)} (l : list A) :
  (length (filter P l) + length (filter (λ x, ¬ P x) l) = length l)%nat.
Proof.
  induction l as [|x l IH]; [done|]. rewrite !filter_cons.
  destruct (decide (P x)) as [HP|HP].
  - rewrite decide_False by tauto. cbn [length]. lia.
  - rewrite decide_True by done. cbn [length]. lia.
Qed.

Lemma Set_add_fresh_length {A} `{EqDecision A} (s : JsSet A) (x : A) :
  x ∉ s → length (Set_add s x) = S (length s).
Proof.
  intros Hx. unfold Set_add. rewrite (proj2 (Set_has_false s x) Hx).
  rewrite length_app. cbn. lia.
Qed.

Lemma joinPair_twoPerCluster (st : GreedyState) (kw1 kw2 : member) :
  kw1 ≠ kw2 → twoPerCluster st → twoPerCluster (joinPair st kw1 kw2).
Proof.
  intros Hne (Hexact & Hnd & Hlen). split_and!.
  - by apply joinPair_assignedExact.
  - cbn [joinPair assigned]. by do 2 apply Set_add_NoDup.
  - unfold joinPair. cbn [clusters assigned].
    destruct (findClusterIdx (clusters st) kw1 kw2) as [i|] eqn:Hfind.
    + rewrite length_alter.
      pose proof (Set_add_length (assigned st) kw1).
      pose proof (Set_add_length (Set_add (assigned st) kw1) kw2). lia.
    + pose proof (proj1 (findClusterIdx_None _ _ _) Hfind) as Hnone.
      assert (kw1 ∉ assigned st) as H1.
      { intros (c & Hc & Hx)%Hexact. by destruct (Hnone c Hc). }
      assert (kw2 ∉ Set_add (assigned st) kw1) as H2.
      { intros [(c & Hc & Hx)%Hexact| ->]%elem_of_Set_add; [|done].
        by destruct (Hnone c Hc). }
      rewrite length_app, !Set_add_fresh_length by done. cbn [length]. lia.
Qed.

Lemma fold_joinEntry_twoPerCluster (pairs : list (jsstring * OverlapData))
    (st : GreedyState) :
  (∀ e, e ∈ pairs → (splitKey e.1).1 ≠ (splitKey e.1).2) →
  twoPerCluster st → twoPerCluster (fold_left joinEntry pairs st).
Proof.
  revert st. induction pairs as [|e rest IH]; intros st Hpairs Hst; [done|].
  cbn [fold_left]. apply IH.
  - intros e' He'. apply Hpairs. by right.
  - apply joinPair_twoPerCluster; [|done]. apply Hpairs. by left.
Qed.

Lemma clusterKeywords_count (serpData : SerpData) (minOverlap : Z) :
  NoDup (Map_keys serpData) →
  (∀ kw, kw ∈ Map_keys serpData → "|"%char ∉ kw) →
  let st := greedyPass (calculateUrlOverlap serpData) minOverlap in
  (2 * length (clusters st)
   + length (unassigned (assigned st) (Map_keys serpData))
   ≤ length (Map_keys serpData))%nat.
Proof.
  intros Hnd Hsep st.
  assert (twoPerCluster st) as (Hexact & Hand & Hlen).
  { subst st. rewrite greedyPass_fold. apply fold_joinEntry_twoPerCluster.
    - intros e. by apply processedPairs_distinct.
    - split_and!; [apply initialState_assignedExact|apply NoDup_nil_2|cbn; lia]. }
  assert (length (assigned st)
          ≤ length (filter (λ kw, Some kw ∈ assigned st) (Map_keys serpData)))%nat as Hin.
  { rewrite <- (length_fmap Some (filter _ _)).
    apply submseteq_length, NoDup_submseteq; [done|].
    intros x Hx. subst st. pose proof Hx as Hx'.
    rewrite greedyPass_fold in Hx'.
    apply fold_joinEntry_assigned in Hx' as [Hx'|(e & [He _]%elem_of_processedPairs & Hkw)];
      [by apply elem_of_nil in Hx'|].
    destruct (calculateUrlOverlap_splitKey serpData e Hsep He)
      as (kw1 & kw2 & Hk1 & Hk2 & _ & Hsplit).
    rewrite Hsplit in Hkw. cbn [fst snd] in Hkw.
    apply list_elem_of_fmap.
    destruct Hkw as [-> | ->]; [exists kw1|exists kw2]; (split; [done|]);
      by apply list_elem_of_filter. }
  pose proof (filter_length_split (λ kw, Some kw ∈ assigned st) (Map_keys serpData)).
  unfold unassigned. lia.
Qed.

(** ** Sorting the members of a cluster *)

Lemma strLt_irrefl (a : jsstring) : strLt a a = false.
Proof.
  induction a as [|x a IH]; [done|]. cbn. by rewrite N.ltb_irrefl.
Qed.

Lemma strLt_cotrans (a b c : jsstring) :
  strLt a c = true → strLt a b = true ∨ strLt b c = true.
Proof.
  revert b c. induction a as [|x a IH]; intros [|z b] [|y c]; cbn; auto.
  destruct (N.ltb_spec (code x) (code y)), (N.ltb_spec (code y) (code x)),
    (N.ltb_spec (code x) (code z)), (N.ltb_spec (code z) (code x)),
    (N.ltb_spec (code z) (code y)), (N.ltb_spec (code y) (code z));
    auto; try discriminate; try lia.
Qed.

Lemma strLt_asym (a b : jsstring) : strLt a b = true → strLt b a = false.
Proof.
  revert b. induction a as [|x a IH]; intros [|y b]; cbn; auto.
  destruct (N.ltb_spec (code x) (code y)), (N.ltb_spec (code y) (code x));
    auto; try discriminate; lia.
Qed.

(** [x] does not sort after [y]. *)
Lemma sortCompare_le (a b : jsstring) :
  (sortCompare (Some a) (Some b) ≤ 0)%Z ↔ strLt b a = false.
Proof.
  cbn. destruct (strLt a b) eqn:Hab.
  - apply strLt_asym in Hab. rewrite Hab. lia.
  - destruct (strLt b a); split; (done || lia).
Qed.

Lemma sortCompare_total (x y : member) :
  (0 < sortCompare x y)%Z → (sortCompare y x ≤ 0)%Z.
Proof.
  destruct x as [a|], y as [b|]; cbn; try lia.
  destruct (strLt a b) eqn:Hab; [lia|]. destruct (strLt b a); lia.
Qed.

Lemma sortCompare_trans (x y z : member) :
  (sortCompare x y ≤ 0)%Z → (sortCompare y z ≤ 0)%Z → (sortCompare x z ≤ 0)%Z.
Proof.
  destruct x as [a|], y as [b|], z as [c|]; try (cbn; lia).
  rewrite !sortCompare_le. intros Hba Hcb.
  destruct (strLt c a) eqn:Hca; [|done].
  destruct (strLt_cotrans c b a Hca); congruence.
Qed.

Section SortBy.
Context {A : Type} (cmp : A → A → Z).
Hypothesis cmp_total : ∀ x y, (0 < cmp x y)%Z → (cmp y x ≤ 0)%Z.
Hypothesis cmp_trans : ∀ x y z, (cmp x y ≤ 0)%Z → (cmp y z ≤ 0)%Z → (cmp x z ≤ 0)%Z.

Lemma insertSorted_sorted_by (x : A) (l : list A) :
  StronglySorted (λ a b, (cmp a b ≤ 0)%Z) l →
  StronglySorted (λ a b, (cmp a b ≤ 0)%Z) (insertSorted cmp x l).
Proof.
  induction 1 as [|y l Hl IH Hy]; cbn.
  - by repeat constructor.
  - destruct (Z.leb_spec (cmp x y) 0) as [Hle|Hgt].
    + constructor; [by constructor|]. constructor; [done|].
      eapply Forall_impl; [exact Hy|]. intros z Hz. by eapply cmp_trans.
    + constructor; [done|]. rewrite insertSorted_Permutation.
      constructor; [|done]. by apply cmp_total.
Qed.

Lemma sortBy_sorted_by (l : list A) :
  StronglySorted (λ a b, (cmp a b ≤ 0)%Z) (sortBy cmp l).
Proof.
  induction l as [|x l IH]; cbn; [constructor|]. by apply insertSorted_sorted_by.
Qed.

(** The first element of the sorted list sorts after no element. *)
Lemma sortBy_head_least (l : list A) (h : A) (t : list A) (x : A) :
  sortBy cmp l = h :: t → x ∈ l → (cmp h x ≤ 0)%Z.
Proof.
  intros Hsort Hx. pose proof (sortBy_sorted_by l) as Hsorted.
  rewrite <- (sortBy_Permutation cmp l), Hsort in Hx. rewrite Hsort in Hsorted.
  apply StronglySorted_inv in Hsorted as [_ Hall]. rewrite Forall_forall in Hall.
  apply elem_of_cons in Hx as [->|Hx]; [|by apply Hall].
  destruct (Z.leb_spec (cmp h h) 0) as [|Hgt]; [done|]. by apply cmp_total.
Qed.
End SortBy.

(** The sorted list of a cluster starts with a string as soon as the
    cluster holds one. *)
Lemma sorted_head (cluster : Cluster) :
  match sortBy sortCompare cluster with
  | [] => cluster = []
  | Some text :: _ =>
      Some text ∈ cluster ∧ ∀ x, x ∈ cluster → (sortCompare (Some text) x ≤ 0)%Z
  | None :: _ => cluster ≠ [] ∧ ∀ x, x ∈ cluster → x = None
  end.
Proof.
  destruct (sortBy sortCompare cluster) as [|h t] eqn:Hsort.
  - apply Permutation_nil_r. by rewrite <- Hsort, sortBy_Permutation.
  - assert (h ∈ cluster) as Hh.
    { rewrite <- (sortBy_Permutation sortCompare cluster), Hsort. by left. }
    pose proof (sortBy_head_least sortCompare sortCompare_total sortCompare_trans
                  cluster h t) as Hleast.
    destruct h as [text|].
    + split; [done|]. intros x Hx. by apply Hleast.
    + split; [intros ->; by apply elem_of_nil in Hh|].
      intros [kw|] Hx; [|done]. specialize (Hleast _ Hsort Hx). cbn in Hleast. lia.
Qed.

(** ** Cluster records *)

Lemma elem_of_intersectWith (serpData : SerpData) (shared : JsSet jsstring)
    (kw : member) (url : jsstring) :
  url ∈ intersectWith serpData shared kw ↔ url ∈ shared ∧ url ∈ memberUrls serpData kw.
Proof.
  unfold intersectWith. rewrite elem_of_newSet, list_elem_of_filter, Is_true_true.
  rewrite Set_has_true. tauto.
Qed.

Lemma elem_of_fold_intersectWith (serpData : SerpData) (kws : list member)
    (shared : JsSet jsstring) (url : jsstring) :
  url ∈ fold_left (intersectWith serpData) kws shared ↔
  url ∈ shared ∧ ∀ kw, kw ∈ kws → url ∈ memberUrls serpData kw.
Proof.
  revert shared. induction kws as [|kw kws IH]; intros shared; cbn [fold_left].
  - split; [|tauto]. intros Hin. split; [done|]. by intros kw ?%elem_of_nil.
  - rewrite IH, elem_of_intersectWith. setoid_rewrite elem_of_cons. naive_solver.
Qed.

Lemma fold_intersectWith_NoDup (serpData : SerpData) (kws : list member)
    (shared : JsSet jsstring) :
  NoDup shared → NoDup (fold_left (intersectWith serpData) kws shared).
Proof.
  revert shared. induction kws as [|kw kws IH]; intros shared Hnd; [done|].
  cbn [fold_left]. apply IH, newSet_NoDup.
Qed.

(** The shared URLs of a non-empty cluster are the URLs every member ranks,
    each once. *)
Lemma sharedUrlsOf_spec (serpData : SerpData) (cluster : Cluster) :
  cluster ≠ [] →
  NoDup (sharedUrlsOf serpData (sortBy sortCompare cluster))
  ∧ ∀ url, url ∈ sharedUrlsOf serpData (sortBy sortCompare cluster) ↔
           ∀ kw, kw ∈ cluster → url ∈ memberUrls serpData kw.
Proof.
  intros Hne. pose proof (sortBy_Permutation sortCompare cluster) as Hperm.
  destruct (sortBy sortCompare cluster) as [|h t] eqn:Hsort.
  { by apply Permutation_nil_l in Hperm. }
  unfold sharedUrlsOf. cbn [lookup list_lookup from_option drop]. split.
  - apply fold_intersectWith_NoDup, newSet_NoDup.
  - intros url. rewrite elem_of_fold_intersectWith.
    setoid_rewrite <- Hperm. setoid_rewrite elem_of_cons. naive_solver.
Qed.

Lemma clusterRecord_is_Some (serpData : SerpData) (i : nat) (cluster : Cluster) :
  is_Some (clusterRecord serpData i cluster) ↔ ∃ text, Some text ∈ cluster.
Proof.
  unfold clusterRecord. pose proof (sorted_head cluster) as Hhead.
  destruct (sortBy sortCompare cluster) as [|[text|] t]; cbn [lookup list_lookup from_option].
  - subst cluster. split; [by intros [? ?]|]. intros [text Hin]. by apply elem_of_nil in Hin.
  - destruct Hhead as [Hin _]. split; [by exists text|by eexists].
  - destruct Hhead as [_ Hnone]. split; [by intros [? ?]|].
    intros [text Hin]. by specialize (Hnone _ Hin).
Qed.

(** What a record says about its cluster. *)
Lemma clusterRecord_Some (serpData : SerpData) (i : nat) (cluster : Cluster)
    (record : Output.t) :
  clusterRecord serpData i cluster = Some record →
  Output.cluster_id record = S i
  ∧ Output.keyword_count record = length cluster
  ∧ Some (Output.primary_keyword record) ∈ cluster
  ∧ (∀ x, x ∈ cluster → (sortCompare (Some (Output.primary_keyword record)) x ≤ 0)%Z)
  ∧ Output.recommended_slug record = generateSlug (Output.primary_keyword record)
  ∧ Output.cluster_keywords record =
      join (str ", ") (memberText <$> sortBy sortCompare cluster)
  ∧ Output.shared_url_count record =
      length (sharedUrlsOf serpData (sortBy sortCompare cluster))
  ∧ Output.shared_urls record =
      join (str ", ") (take 3 (sharedUrlsOf serpData (sortBy sortCompare cluster))).
Proof.
  unfold clusterRecord. pose proof (sorted_head cluster) as Hhead.
  pose proof (sortBy_Permutation sortCompare cluster) as Hperm.
  destruct (sortBy sortCompare cluster) as [|[text|] t] eqn:Hsort;
    cbn [lookup list_lookup from_option]; [done| |done].
  intros [= <-]. cbn. destruct Hhead as [Hin Hleast].
  split_and!; try done.
  - lia.
  - by rewrite <- Hperm.
Qed.

Lemma createClusterOutputFrom_Some (serpData : SerpData) (clusters : list Cluster)
    (i : nat) (out : list Output.t) :
  createClusterOutputFrom i clusters serpData = Some out →
  length out = length clusters
  ∧ ∀ j record, out !! j = Some record →
      ∃ cluster, clusters !! j = Some cluster
                 ∧ clusterRecord serpData (i + j) cluster = Some record.
Proof.
  revert i out. induction clusters as [|c rest IH]; intros i out; cbn [createClusterOutputFrom].
  - intros [= <-]. split; [done|]. by intros j record ?.
  - destruct (clusterRecord serpData i c) as [r|] eqn:Hr; [|done].
    destruct (createClusterOutputFrom (S i) rest serpData) as [out'|] eqn:Hout; [|done].
    intros [= <-]. destruct (IH _ _ Hout) as [Hlen Hrec]. split; [cbn; by rewrite Hlen|].
    intros [|j] record; cbn.
    + intros [= <-]. exists c. by rewrite Nat.add_0_r.
    + intros Hj. destruct (Hrec j record Hj) as (cluster & Hc & Hcr).
      exists cluster. split; [done|]. by rewrite Nat.add_succ_r.
Qed.

Lemma createClusterOutputFrom_is_Some (serpData : SerpData) (clusters : list Cluster)
    (i : nat) :
  is_Some (createClusterOutputFrom i clusters serpData) ↔
  ∀ cluster, cluster ∈ clusters → ∃ text, Some text ∈ cluster.
Proof.
  revert i. induction clusters as [|c rest IH]; intros i; cbn [createClusterOutputFrom].
  - split; [|by eexists]. by intros _ cluster ?%elem_of_nil.
  - pose proof (clusterRecord_is_Some serpData i c) as Hc.
    destruct (clusterRecord serpData i c) as [r|].
    + rewrite fmap_is_Some, IH. setoid_rewrite elem_of_cons.
      destruct Hc as [Hc _]. specialize (Hc ltac:(by eexists)). naive_solver.
    + split; [by intros [? ?]|]. intros Hall.
      destruct Hc as [_ Hc]. destruct Hc as [? ?]; [|done]. apply Hall. by left.
Qed.

Lemma recordOf_clusterRecord (clusters : list Cluster) (serpData : SerpData) (j : nat)
    (cluster : Cluster) (record : Output.t) :
  recordOf clusters serpData j cluster record →
  clusterRecord serpData j cluster = Some record.
Proof.
  intros (out & Hout & Hc & Hr).
  destruct (createClusterOutputFrom_Some _ _ _ _ Hout) as [_ Hrec].
  destruct (Hrec j record Hr) as (c & Hc' & Hcr).
  rewrite Hc in Hc'. injection Hc' as <-. exact Hcr.
Qed.

Lemma shared_le_sharedCount (serpData : SerpData) (cluster : Cluster)
    (kw1 kw2 : jsstring) :
  Some kw1 ∈ cluster → Some kw2 ∈ cluster →
  (length (sharedUrlsOf serpData (sortBy sortCompare cluster))
   ≤ sharedCount serpData kw1 kw2)%nat.
Proof.
  intros H1 H2.
  destruct (sharedUrlsOf_spec serpData cluster) as [Hnd Hin].
  { intros ->. by apply elem_of_nil in H1. }
  apply submseteq_length, NoDup_submseteq; [done|].
  intros url Hurl. pose proof (proj1 (Hin url) Hurl) as Hall.
  apply list_elem_of_filter.
  split; [apply (Hall (Some kw2) H2)|apply (Hall (Some kw1) H1)].
Qed.

Lemma shared_eq_sharedCount (serpData : SerpData) (cluster : Cluster)
    (kw1 kw2 : jsstring) :
  (∀ x, x ∈ cluster ↔ x = Some kw1 ∨ x = Some kw2) →
  length (sharedUrlsOf serpData (sortBy sortCompare cluster))
  = sharedCount serpData kw1 kw2.
Proof.
  intros Hmem.
  destruct (sharedUrlsOf_spec serpData cluster) as [Hnd Hin].
  { intros ->. apply (elem_of_nil (Some kw1)), Hmem. by left. }
  apply Permutation_length, NoDup_Permutation; [done| |].
  - apply NoDup_filter, newSet_NoDup.
  - intros url. rewrite Hin, list_elem_of_filter. split.
    + intros Hall. split; [apply (Hall (Some kw2))|apply (Hall (Some kw1))];
        apply Hmem; auto.
    + intros [H2 H1] kw Hkw. apply (proj1 (Hmem kw)) in Hkw as [-> | ->]; done.
Qed.

(** ** The clusters of the pipeline *)

Lemma split_two (sep : ascii) (s : jsstring) :
  sep ∈ s → ∃ a b rest, split sep s = a :: b :: rest.
Proof.
  induction s as [|c s IH]; [by intros ?%elem_of_nil|]. cbn [split].
  pose proof (split_nonempty sep s) as Hs.
  destruct (decide (c = sep)) as [->|Hne].
  - intros _. destruct (split sep s) as [|w ws]; [done|]. by exists [], w, ws.
  - intros [?|Hin]%elem_of_cons; [done|].
    destruct (IH Hin) as (a & b & rest & ->). by exists (c :: a), b, rest.
Qed.

(** Both names split from a key the overlap engine wrote are strings. *)
Lemma splitKey_pairKey_Some (kw1 kw2 : jsstring) :
  ∃ a b, splitKey (pairKey kw1 kw2) = (Some a, Some b).
Proof.
  destruct (split_two "|"%char (pairKey kw1 kw2)) as (a & b & rest & Hsplit).
  { unfold pairKey. rewrite !elem_of_app, list_elem_of_singleton. auto. }
  exists a, b. unfold splitKey. by rewrite Hsplit.
Qed.

Lemma joinPair_nonempty (st : GreedyState) (kw1 kw2 : member) :
  (∀ c, c ∈ clusters st → c ≠ []) →
  ∀ c, c ∈ clusters (joinPair st kw1 kw2) → c ≠ [].
Proof.
  intros Hst c Hc ->.
  destruct (joinPair_covers st kw1 kw2 kw1) as (c1 & Hc1 & H1); [by left|].
  apply list_elem_of_lookup in Hc as [j Hj]. revert Hj.
  unfold joinPair. cbn [clusters].
  destruct (findClusterIdx (clusters st) kw1 kw2) as [i|].
  - destruct (decide (i = j)) as [->|Hij].
    + rewrite list_lookup_alter_eq. intros (c0 & Hc0 & Heq)%fmap_Some.
      assert (kw2 ∈ Set_add (Set_add c0 kw1) kw2) as Hin by (apply elem_of_add_pair; auto).
      rewrite <- Heq in Hin. by apply elem_of_nil in Hin.
    + rewrite list_lookup_alter_ne by done. intros Hj.
      by apply (Hst [] (list_elem_of_lookup_2 _ _ _ Hj)).
  - intros Hj. apply list_elem_of_lookup_2 in Hj.
    apply elem_of_app in Hj as [Hj|Hj%list_elem_of_singleton].
    + by apply (Hst [] Hj).
    + assert (kw1 ∈ newSet [kw1; kw2]) as Hin by (apply elem_of_new_pair; auto).
      rewrite <- Hj in Hin. by apply elem_of_nil in Hin.
Qed.

Lemma fold_joinEntry_nonempty (pairs : list (jsstring * OverlapData)) (st : GreedyState) :
  (∀ c, c ∈ clusters st → c ≠ []) →
  ∀ c, c ∈ clusters (fold_left joinEntry pairs st) → c ≠ [].
Proof.
  revert st. induction pairs as [|e rest IH]; intros st Hst; [done|].
  cbn [fold_left]. by apply IH, joinPair_nonempty.
Qed.

(** No returned cluster is empty. *)
Lemma clusterKeywords_nonempty (serpData : SerpData) (overlapMatrix : OverlapMatrix)
    (minOverlap : Z) (c : Cluster) :
  c ∈ clusterKeywords serpData overlapMatrix minOverlap → c ≠ [].
Proof.
  rewrite clusterKeywords_eq, greedyPass_fold. intros [Hc|Hc]%elem_of_app.
  - revert c Hc. apply fold_joinEntry_nonempty. by intros c ?%elem_of_nil.
  - by apply list_elem_of_fmap in Hc as (kw & -> & _).
Qed.

(** With the matrix of the overlap engine, every member of every cluster is
    a string. *)
Lemma clusterKeywords_strings (serpData : SerpData) (minOverlap : Z)
    (c : Cluster) (x : member) :
  c ∈ clusterKeywords serpData (calculateUrlOverlap serpData) minOverlap →
  x ∈ c → is_Some x.
Proof.
  rewrite clusterKeywords_eq. intros [Hc|Hc]%elem_of_app Hx.
  - destruct (greedyPass_members _ _ _ _ Hc Hx) as (key & data & He & _ & Hkw).
    apply calculateUrlOverlap_entries in He as (kw1 & kw2 & _ & Hkey & _).
    cbn [fst] in Hkey. subst key.
    destruct (splitKey_pairKey_Some kw1 kw2) as (a & b & Hsplit).
    rewrite Hsplit in Hkw. cbn in Hkw. destruct Hkw as [-> | ->]; by eexists.
  - apply list_elem_of_fmap in Hc as (kw & -> & _).
    apply list_elem_of_singleton in Hx as ->. by eexists.
Qed.

Lemma pipeline_records (serpData : SerpData) (minOverlap : Z) :
  is_Some (createClusterOutput
             (clusterKeywords serpData (calculateUrlOverlap serpData) minOverlap)
             serpData).
Proof.
  apply createClusterOutputFrom_is_Some. intros c Hc.
  pose proof (clusterKeywords_nonempty _ _ _ _ Hc) as Hne.
  destruct c as [|x c']; [done|].
  destruct (clusterKeywords_strings serpData minOverlap (x :: c') x Hc) as [text ->];
    [by left|].
  exists text. by left.
Qed.

(** ** CSV fields and lines *)





Lemma unquoted_id (s : jsstring) : dquote ∉ s → unquoted s = s.
Proof.
  intros Hs. apply filter_all. intros c Hc ->. done.
Qed.

Lemma fold_parseChar_plain (s : jsstring) (values : list jsstring) (current : jsstring) :
  ","%char ∉ s → dquote ∉ s →
  fold_left parseChar s (values, current, false) = (values, current ++ s, false).
Proof.
  revert current. induction s as [|c s IH]; intros current Hcomma Hquote; cbn [fold_left].
  - by rewrite app_nil_r.
  - apply not_elem_of_cons in Hcomma as [Hc1 Hcomma].
    apply not_elem_of_cons in Hquote as [Hc2 Hquote].
    unfold parseChar at 2.
    rewrite !bool_decide_eq_false_2 by congruence. cbn [andb].
    rewrite IH by done. by rewrite <- app_assoc.
Qed.

Lemma fold_parseChar_quoted (s : jsstring) (values : list jsstring) (current : jsstring) :
  fold_left parseChar (doubleQuotes s) (values, current, true)
  = (values, current ++ unquoted s, true).
Proof.
  unfold doubleQuotes, unquoted.
  revert current. induction s as [|c s IH]; intros current.
  - cbn. by rewrite app_nil_r.
  - rewrite bind_cons, fold_left_app, filter_cons.
    destruct (decide (c = dquote)) as [->|Hc].
    + rewrite decide_False by tauto. cbn [fold_left]. unfold parseChar at 2 3.
      rewrite !bool_decide_eq_true_2 by done. cbn [negb]. apply IH.
    + rewrite decide_True by done. cbn [fold_left]. unfold parseChar at 2.
      rewrite bool_decide_eq_false_2 by done. rewrite andb_false_r.
      rewrite IH. by rewrite <- app_assoc.
Qed.

Lemma parseChar_quote (values : list jsstring) (current : jsstring) (inQuotes : bool) :
  parseChar (values, current, inQuotes) dquote = (values, current, negb inQuotes).
Proof. unfold parseChar. by rewrite bool_decide_eq_true_2. Qed.

Lemma parseChar_comma (values : list jsstring) (current : jsstring) :
  parseChar (values, current, false) ","%char = (values ++ [trim current], [], false).
Proof. reflexivity. Qed.

Lemma fold_parseChar_wrapped (s : jsstring) (values : list jsstring) (current : jsstring) :
  fold_left parseChar ([dquote] ++ doubleQuotes s ++ [dquote]) (values, current, false)
  = (values, current ++ unquoted s, false).
Proof.
  rewrite !fold_left_app. cbn [fold_left]. rewrite parseChar_quote. cbn [negb].
  rewrite fold_parseChar_quoted. by rewrite parseChar_quote.
Qed.

(** Reading an escaped value outside quotes appends the value, without
    its double quotes, to the current one. *)
Lemma fold_parseChar_escapeCSV (value : csvValue) (values : list jsstring)
    (current : jsstring) :
  fold_left parseChar (escapeCSV value) (values, current, false)
  = (values, current ++ unquoted (toString value), false).
Proof.
  unfold escapeCSV.
  destruct (bool_decide (","%char ∈ toString value)
            || bool_decide (dquote ∈ toString value)
            || bool_decide (newline ∈ toString value)) eqn:Hcond.
  - apply fold_parseChar_wrapped.
  - apply orb_false_iff in Hcond as [[Hcomma Hquote]%orb_false_iff _].
    apply bool_decide_eq_false in Hcomma, Hquote.
    rewrite unquoted_id by done. by apply fold_parseChar_plain.
Qed.

Lemma join_cons (sep p : jsstring) (ps : list jsstring) :
  ps ≠ [] → join sep (p :: ps) = p ++ sep ++ join sep ps.
Proof. by destruct ps. Qed.

Lemma fold_parseChar_line (values : list csvValue) (final : csvValue)
    (read : list jsstring) :
  fold_left parseChar (join [","%char] (escapeCSV <$> values ++ [final])) (read, [], false)
  = (read ++ (readBack <$> values), unquoted (toString final), false).
Proof.
  revert read. induction values as [|value values IH]; intros read.
  - cbn [app fmap list_fmap join]. rewrite fold_parseChar_escapeCSV.
    by rewrite app_nil_r.
  - cbn [app]. rewrite fmap_cons, join_cons by (rewrite fmap_app; by destruct values).
    rewrite !fold_left_app, fold_parseChar_escapeCSV. cbn [fold_left app].
    rewrite parseChar_comma, IH. by rewrite <- app_assoc.
Qed.

(** The line reader gives back each value of an escaped line, without its
    double quotes and surrounding white space. *)
Lemma parseLine_escaped (values : list csvValue) :
  values ≠ [] →
  parseLine (join [","%char] (escapeCSV <$> values)) = readBack <$> values.
Proof.
  destruct values as [|final values _] using rev_ind; [done|]. intros _.
  unfold parseLine. rewrite fold_parseChar_line. by rewrite fmap_app.
Qed.

(** Joining pieces free of the separator and splitting again gives the
    pieces back. *)
Lemma split_join_pieces (sep : ascii) (ps : list jsstring) :
  ps ≠ [] → Forall (λ p, sep ∉ p) ps → split sep (join [sep] ps) = ps.
Proof.
  intros Hne Hps. induction Hps as [|p ps Hp Hps IH]; [done|].
  destruct ps as [|q ps].
  - cbn [join]. by apply split_no_sep.
  - rewrite join_cons by done. cbn [app]. rewrite split_app_sep by done.
    by rewrite IH.
Qed.

Lemma elem_of_doubleQuotes (s : jsstring) (c : ascii) :
  c ∈ doubleQuotes s → c ∈ s ∨ c = dquote.
Proof.
  unfold doubleQuotes. intros (x & Hc & Hx)%list_elem_of_bind.
  destruct (decide (x = dquote)) as [->|Hne].
  - right. apply elem_of_cons in Hc as [->|Hc]; [done|].
    by apply list_elem_of_singleton in Hc.
  - left. by apply list_elem_of_singleton in Hc as ->.
Qed.

Lemma escapeCSV_newline (value : csvValue) :
  newline ∉ toString value → newline ∉ escapeCSV value.
Proof.
  intros Hv. unfold escapeCSV. destruct (_ || _); [|done].
  rewrite !elem_of_app, !list_elem_of_singleton.
  intros [Hq|[[Hin|Hq]%elem_of_doubleQuotes|Hq]]; done.
Qed.

Lemma clusterLine_newline (row : Output.t) : oneLine row → newline ∉ clusterLine row.
Proof.
  intros Hrow [Hin|(p & Hp & Hin)]%elem_of_join.
  - by apply list_elem_of_singleton in Hin.
  - apply list_elem_of_fmap in Hp as (value & -> & Hvalue).
    by apply (escapeCSV_newline value (Hrow value Hvalue)).
Qed.

Lemma saveClusters_split (clustersData : list Output.t) :
  Forall oneLine clustersData →
  split newline (saveClusters clustersData) =
  join [","%char] fieldnames :: (clusterLine <$> clustersData).
Proof.
  intros Hdata. unfold saveClusters. apply split_join_pieces; [done|].
  constructor; [by_compute|]. apply Forall_fmap.
  eapply Forall_impl; [exact Hdata|]. intros row. apply clusterLine_newline.
Qed.

(** ** The pipeline *)

Lemma counts_add_up (clustersData : list Output.t) :
  Forall (λ c, (1 ≤ Output.keyword_count c)%nat) clustersData →
  (length (filter (λ c, (1 < Output.keyword_count c)%nat) clustersData)
   + length (filter (λ c, Output.keyword_count c = 1%nat) clustersData)
   = length clustersData)%nat.
Proof.
  induction 1 as [|c data Hc _ IH]; [done|]. rewrite !filter_cons.
  destruct (decide (1 < Output.keyword_count c)%nat),
    (decide (Output.keyword_count c = 1%nat)); cbn [length]; lia.
Qed.

Lemma pipeline_keyword_counts (serpData : SerpData) (minOverlap : Z)
    (clustersData : list Output.t) :
  createClusterOutput
    (clusterKeywords serpData (calculateUrlOverlap serpData) minOverlap) serpData
  = Some clustersData →
  Forall (λ c, (1 ≤ Output.keyword_count c)%nat) clustersData.
Proof.
  intros Hout. apply Forall_lookup. intros j record Hj.
  destruct (createClusterOutputFrom_Some _ _ _ _ Hout) as [_ Hrec].
  destruct (Hrec j record Hj) as (cluster & Hc & Hcr).
  apply clusterRecord_Some in Hcr as (_ & -> & _).
  apply list_elem_of_lookup_2, clusterKeywords_nonempty in Hc.
  destruct cluster; [done|]. cbn. lia.
Qed.

(** The keywords a run loads hold no separator when the kept rows have
    none. *)
Lemma loadSerpData_keys (records : list Row) (kw : jsstring) :
  kw ∈ Map_keys (loadSerpData records) →
  ∃ row, row ∈ records ∧ included row ∧ kw = trim (keyword row).
Proof.
  unfold loadSerpData. rewrite Map_keys_fold_loadRow, elem_of_fold_Set_add.
  intros [Hin|Hin]; [by apply elem_of_nil in Hin|].
  apply list_elem_of_fmap in Hin as (row & -> & [Hinc Hrow]%list_elem_of_filter).
  by exists row.
Qed.

(** ** Further properties of the loader and the overlap engine *)

Lemma combinations_NoDup {T} (items : list T) :
  NoDup items → NoDup (combinations items).
Proof.
  induction 1 as [|x rest Hx Hnd IH]; [apply NoDup_nil_2|]. cbn [combinations].
  apply NoDup_app. split_and!; [|by intros [a b] (y & [= -> ->] & Hy)%list_elem_of_fmap
    [Ha _]%elem_of_combinations|done].
  apply NoDup_fmap_2; [|done]. by intros y z [= ->].
Qed.

Lemma combinations_one_order {T} (items : list T) (a b : T) :
  NoDup items → (a, b) ∈ combinations items → (b, a) ∉ combinations items.
Proof.
  induction 1 as [|x rest Hx Hnd IH]; [by intros ?%elem_of_nil|]. cbn [combinations].
  rewrite !elem_of_app, !list_elem_of_fmap.
  intros [(y & [= -> ->] & Hy)|Hab] [(z & [= -> ->] & Hz)|Hba].
  - done.
  - by apply elem_of_combinations in Hba as [_ ?].
  - by apply elem_of_combinations in Hab as [_ ?].
  - by apply IH.
Qed.

(** X5.  Over distinct items, [combinations] yields every unordered pair
    of two different items exactly once: no pair twice, no item with
    itself, no pair in both orders, and every two different items in one
    order. *)
Theorem combinations_each_pair_once {T} (items : list T) :
  NoDup items →
  NoDup (combinations items)
  ∧ (∀ a b, (a, b) ∈ combinations items →
       a ∈ items ∧ b ∈ items ∧ a ≠ b ∧ (b, a) ∉ combinations items)
  ∧ (∀ a b, a ∈ items → b ∈ items → a ≠ b →
       (a, b) ∈ combinations items ∨ (b, a) ∈ combinations items).
Proof.
  intros Hnd. split_and!.
  - by apply combinations_NoDup.
  - intros a b Hab. destruct (elem_of_combinations _ _ _ Hab) as [Ha Hb].
    split_and!; [done|done|by eapply combinations_distinct|by apply combinations_one_order].
  - apply combinations_total.
Qed.

Lemma combinations_each_pair_once_witness :
  NoDup (Map_keys Examples.bridge)
  ∧ NoDup (combinations (Map_keys Examples.bridge)).
Proof.
  assert (NoDup (Map_keys Examples.bridge)) as Hnd by by_compute.
  split; [exact Hnd|].
  exact (proj1 (combinations_each_pair_once (Map_keys Examples.bridge) Hnd)).
Defined.

Lemma urlTotal_push (m : SerpData) (k u : jsstring) :
  k ∈ Map_keys m → urlTotal (Map_push m k u) = S (urlTotal m).
Proof.
  unfold urlTotal, Map_entries, Map_keys.
  induction m as [|[k' us] m IH]; [by intros ?%elem_of_nil|]. cbn [Map_push].
  destruct (decide (k' = k)) as [->|Hne].
  - intros _. rewrite !fmap_cons. cbn [sum_list snd]. rewrite length_app. cbn. lia.
  - rewrite !fmap_cons. intros [?|Hin]%elem_of_cons; [done|].
    cbn [sum_list snd]. rewrite IH by done. lia.
Qed.

Lemma urlTotal_set_empty (m : SerpData) (k : jsstring) :
  k ∉ Map_keys m → urlTotal (Map_set m k []) = urlTotal m.
Proof.
  unfold urlTotal, Map_entries, Map_keys.
  induction m as [|[k' us] m IH]; [done|]. cbn [Map_set].
  rewrite fmap_cons. intros [Hne Hout]%not_elem_of_cons.
  rewrite decide_False by done. rewrite !fmap_cons. cbn [sum_list]. by rewrite IH.
Qed.

Lemma urlTotal_loadRow (m : SerpData) (row : Row) :
  urlTotal (loadRow m row) = if decide (included row) then S (urlTotal m) else urlTotal m.
Proof.
  unfold loadRow, included.
  destruct (Z.leb_spec (positionOf row) 10) as [Hle|Hgt].
  - rewrite decide_True by done.
    destruct (Map_has m (trim (keyword row))) eqn:Hhas; cbn [negb].
    + apply urlTotal_push. by apply Map_has_true.
    + assert (trim (keyword row) ∉ Map_keys m) as Hout.
      { intros Hin%Map_has_true. congruence. }
      rewrite urlTotal_push, urlTotal_set_empty; [done|done|].
      rewrite Map_keys_set, decide_False by done. apply elem_of_app. right. by left.
  - rewrite decide_False; [done|]. lia.
Qed.

(** X8.  Every kept row leaves exactly one URL in the map, and a dropped
    row none: the URL lists of the loaded map hold, all together, as many
    URLs as there are kept rows (duplicates included). *)
Theorem loadSerpData_url_total (records : list Row) :
  urlTotal (loadSerpData records) = length (filter included records).
Proof.
  unfold loadSerpData.
  assert (∀ m, urlTotal (fold_left loadRow records m)
               = (urlTotal m + length (filter included records))%nat) as Hfold.
  { induction records as [|row rest IH]; intros m; cbn [fold_left].
    - cbn. lia.
    - rewrite IH, urlTotal_loadRow, filter_cons.
      destruct (decide (included row)); cbn [length]; lia. }
  by rewrite Hfold.
Qed.

(** ** Further properties of the cluster builder *)

(** X9.  When no entry of the matrix reaches the threshold (an empty
    matrix included), the result is one singleton cluster per keyword, in
    the order of the map. *)
Theorem clusterKeywords_below_threshold (serpData : SerpData)
    (overlapMatrix : OverlapMatrix) (minOverlap : Z) :
  (∀ e, e ∈ Map_entries overlapMatrix → (Z.of_nat (count e.2) < minOverlap)%Z) →
  clusterKeywords serpData overlapMatrix minOverlap =
  (λ kw, [Some kw]) <$> Map_keys serpData.
Proof. apply clusterKeywords_all_singletons. Qed.

Lemma clusterKeywords_below_threshold_witness :
  (∀ e, e ∈ Map_entries (calculateUrlOverlap Examples.twoShared) →
        (Z.of_nat (count e.2) < 3)%Z)
  ∧ clusterKeywords Examples.twoShared (calculateUrlOverlap Examples.twoShared) 3 =
    [ [Some (str "A")]; [Some (str "B")] ].
Proof.
  assert (∀ e, e ∈ Map_entries (calculateUrlOverlap Examples.twoShared) →
               (Z.of_nat (count e.2) < 3)%Z) as Hlow.
  { apply (proj1 (Forall_forall _ _)). by_compute. }
  split; [exact Hlow|].
  exact (clusterKeywords_below_threshold Examples.twoShared _ 3 Hlow).
Defined.

Lemma takeWhile_weaker {A} (p q : A → bool) (l : list A) :
  (∀ x, q x = true → p x = true) →
  ∃ rest, takeWhile p l = takeWhile q l ++ rest.
Proof.
  intros Hqp. induction l as [|x l [rest IH]]; cbn [takeWhile]; [by exists []|].
  destruct (q x) eqn:Hq.
  - rewrite (Hqp x Hq), IH. by exists rest.
  - by eexists.
Qed.

(** X10.  Raising the threshold only shortens the run of the greedy pass:
    with [low ≤ high], the pairs processed under [high] are the first of
    those processed under [low], and every cluster the pass forms under
    [high] is, at the same position, part of a cluster it forms under
    [low]. *)
Theorem clusterKeywords_threshold_monotone (overlapMatrix : OverlapMatrix)
    (low high : Z) :
  (low ≤ high)%Z →
  (∃ rest, processedPairs overlapMatrix low = processedPairs overlapMatrix high ++ rest)
  ∧ (∀ j c, clusters (greedyPass overlapMatrix high) !! j = Some c →
       ∃ c', clusters (greedyPass overlapMatrix low) !! j = Some c' ∧ c ⊆ c').
Proof.
  intros Hle.
  destruct (takeWhile_weaker (qualifies low) (qualifies high)
              (sortBy compareCount (Map_entries overlapMatrix))) as [rest Hrest].
  { intros e. rewrite !qualifies_true. lia. }
  split; [by exists rest|].
  intros j c Hj. rewrite !greedyPass_fold in *. unfold processedPairs in *.
  rewrite Hrest, fold_left_app. by apply fold_joinEntry_grows.
Qed.

Lemma clusterKeywords_threshold_monotone_witness :
  (3 ≤ 5)%Z
  ∧ ∃ rest, processedPairs (calculateUrlOverlap Examples.bridge) 3 =
            processedPairs (calculateUrlOverlap Examples.bridge) 5 ++ rest.
Proof.
  assert (3 ≤ 5)%Z as Hle by lia.
  split; [exact Hle|].
  exact (proj1 (clusterKeywords_threshold_monotone
                  (calculateUrlOverlap Examples.bridge) 3 5 Hle)).
Defined.

(** X11.  For distinct keywords free of [|], there are never more clusters
    than keywords: twice the number of clusters of the greedy pass plus
    the number of singletons is at most the number of keywords. *)
Theorem clusterKeywords_at_most_keywords (serpData : SerpData) (minOverlap : Z) :
  NoDup (Map_keys serpData) →
  (∀ kw, kw ∈ Map_keys serpData → "|"%char ∉ kw) →
  let st := greedyPass (calculateUrlOverlap serpData) minOverlap in
  let singletons := unassigned (assigned st) (Map_keys serpData) in
  (length (clusterKeywords serpData (calculateUrlOverlap serpData) minOverlap)
   = length (clusters st) + length singletons)%nat
  ∧ (2 * length (clusters st) + length singletons ≤ length (Map_keys serpData))%nat
  ∧ (length (clusterKeywords serpData (calculateUrlOverlap serpData) minOverlap)
     ≤ length (Map_keys serpData))%nat.
Proof.
  intros Hnd Hsep st singletons.
  pose proof (clusterKeywords_count serpData minOverlap Hnd Hsep) as Hcount.
  cbv zeta in Hcount. fold st in Hcount. fold singletons in Hcount.
  assert (length (clusterKeywords serpData (calculateUrlOverlap serpData) minOverlap)
          = length (clusters st) + length singletons)%nat as Hlen.
  { rewrite clusterKeywords_eq, length_app, length_fmap. done. }
  split_and!; [done|done|lia].
Qed.

Lemma clusterKeywords_at_most_keywords_witness :
  (length (clusterKeywords Examples.bridge (calculateUrlOverlap Examples.bridge) 3)
   ≤ length (Map_keys Examples.bridge))%nat.
Proof.
  assert (NoDup (Map_keys Examples.bridge)) as Hnd by by_compute.
  assert (∀ kw, kw ∈ Map_keys Examples.bridge → "|"%char ∉ kw) as Hsep.
  { apply (proj1 (Forall_forall _ _)). by_compute. }
  exact (proj2 (proj2 (clusterKeywords_at_most_keywords Examples.bridge 3 Hnd Hsep))).
Defined.

(** ** Properties of the cluster records *)

(** X12.  [createClusterOutput] returns its records exactly when every
    cluster holds at least one string; on an empty cluster, or one whose
    only member is [undefined], slug generation raises and nothing is
    returned.  On the clusters [clusterKeywords] builds from the matrix of
    the overlap engine it always returns. *)
Theorem createClusterOutput_succeeds_iff (clusters : list Cluster) (serpData : SerpData) :
  (is_Some (createClusterOutput clusters serpData) ↔
   ∀ cluster, cluster ∈ clusters → ∃ text, Some text ∈ cluster)
  ∧ ∀ minOverlap,
      is_Some (createClusterOutput
                 (clusterKeywords serpData (calculateUrlOverlap serpData) minOverlap)
                 serpData).
Proof.
  split; [apply createClusterOutputFrom_is_Some|apply pipeline_records].
Qed.

(** X13.  The records come one per cluster, in the order of the clusters
    and numbered from 1; a record counts the members of its cluster, its
    primary keyword is a member that no member precedes in code-unit
    order, its keyword list is the sorted members joined by a comma and a
    space, and its slug is the slug of the primary keyword. *)
Theorem createClusterOutput_records (clusters : list Cluster) (serpData : SerpData)
    (out : list Output.t) :
  createClusterOutput clusters serpData = Some out →
  length out = length clusters
  ∧ ∀ j record, out !! j = Some record →
      ∃ cluster, clusters !! j = Some cluster
        ∧ Output.cluster_id record = S j
        ∧ Output.keyword_count record = length cluster
        ∧ Some (Output.primary_keyword record) ∈ cluster
        ∧ (∀ kw, Some kw ∈ cluster → strLt kw (Output.primary_keyword record) = false)
        ∧ Output.cluster_keywords record =
            join (str ", ") (memberText <$> sortBy sortCompare cluster)
        ∧ sortBy sortCompare cluster ≡ₚ cluster
        ∧ Output.recommended_slug record = generateSlug (Output.primary_keyword record).
Proof.
  intros Hout. destruct (createClusterOutputFrom_Some _ _ _ _ Hout) as [Hlen Hrec].
  split; [done|]. intros j record Hj.
  destruct (Hrec j record Hj) as (cluster & Hc & Hcr). exists cluster.
  apply clusterRecord_Some in Hcr as (Hid & Hcount & Hin & Hleast & Hslug & Hkws & _).
  split_and!; try done.
  - intros kw Hkw. by apply sortCompare_le, Hleast.
  - apply sortBy_Permutation.
Qed.

Lemma createClusterOutput_records_witness :
  createClusterOutput [[Some (str "b"); Some (str "a")]] Examples.twoShared
  = Some [ {| Output.cluster_id := 1;
              Output.primary_keyword := str "a";
              Output.cluster_keywords := str "a, b";
              Output.keyword_count := 2;
              Output.shared_urls := [];
              Output.shared_url_count := 0;
              Output.recommended_slug := str "a" |} ]
  ∧ length [[Some (str "b"); Some (str "a")]] = 1%nat.
Proof.
  assert (createClusterOutput [[Some (str "b"); Some (str "a")]] Examples.twoShared
          = Some [ {| Output.cluster_id := 1;
                      Output.primary_keyword := str "a";
                      Output.cluster_keywords := str "a, b";
                      Output.keyword_count := 2;
                      Output.shared_urls := [];
                      Output.shared_url_count := 0;
                      Output.recommended_slug := str "a" |} ]) as Hout
    by (vm_compute; reflexivity).
  split; [exact Hout|].
  symmetry. exact (proj1 (createClusterOutput_records _ _ _ Hout)).
Defined.



(** X15.  The shared URL count of a record never exceeds the number of
    URLs any two keywords of its cluster have in common, which is the
    count the overlap engine records for them; for a cluster of exactly
    two keywords the two numbers are equal. *)
Theorem createClusterOutput_shared_count_le_overlap (clusters : list Cluster)
    (serpData : SerpData) (j : nat) (cluster : Cluster) (record : Output.t)
    (kw1 kw2 : jsstring) :
  recordOf clusters serpData j cluster record →
  Some kw1 ∈ cluster → Some kw2 ∈ cluster →
  (Output.shared_url_count record ≤ sharedCount serpData kw1 kw2)%nat
  ∧ sharedCount serpData kw1 kw2 = count (pairEntry serpData kw1 kw2)
  ∧ ((∀ x, x ∈ cluster → x = Some kw1 ∨ x = Some kw2) →
     Output.shared_url_count record = sharedCount serpData kw1 kw2).
Proof.
  intros Hrec H1 H2. apply recordOf_clusterRecord in Hrec as Hcr.
  apply clusterRecord_Some in Hcr as (_ & _ & _ & _ & _ & _ & -> & _).
  split_and!.
  - by apply shared_le_sharedCount.
  - by rewrite pairEntry_count.
  - intros Honly. apply shared_eq_sharedCount. intros x. split; [apply Honly|].
    by intros [-> | ->].
Qed.

Lemma createClusterOutput_shared_count_le_overlap_witness :
  (2 ≤ sharedCount Examples.twoShared (str "A") (str "B"))%nat.
Proof.
  assert (recordOf [[Some (str "A"); Some (str "B")]] Examples.twoShared 0
            [Some (str "A"); Some (str "B")]
            {| Output.cluster_id := 1;
               Output.primary_keyword := str "A";
               Output.cluster_keywords := str "A, B";
               Output.keyword_count := 2;
               Output.shared_urls := str "https://2, https://3";
               Output.shared_url_count := 2;
               Output.recommended_slug := str "a" |}) as Hrec.
  { eexists. split_and!; [vm_compute; reflexivity|reflexivity..]. }
  refine (proj1 (createClusterOutput_shared_count_le_overlap _ _ _ _ _
                   (str "A") (str "B") Hrec _ _)); by_compute.
Defined.

(** ** Properties of the CSV output *)




(** X17.  When no field of the records holds a line break, the text
    [saveClusters] writes splits on line breaks into the header line and
    one line per record, in order, and reading these lines back gives the
    seven column names and, for each record, its seven values (without
    double quotes and surrounding white space). *)
Theorem saveClusters_read_back (clustersData : list Output.t) :
  Forall oneLine clustersData →
  length (split newline (saveClusters clustersData)) = S (length clustersData)
  ∧ parseLine <$> split newline (saveClusters clustersData)
    = fieldnames :: ((λ row, readBack <$> fieldValues row) <$> clustersData).
Proof.
  intros Hdata. rewrite saveClusters_split by done. split.
  - cbn [length]. by rewrite length_fmap.
  - rewrite fmap_cons.
    assert (parseLine (join [","%char] fieldnames) = fieldnames) as ->
      by (vm_compute; reflexivity).
    f_equal. rewrite <- list_fmap_compose. apply list_fmap_ext. intros _ row _.
    unfold compose, clusterLine. by apply parseLine_escaped.
Qed.

Lemma saveClusters_read_back_witness :
  Forall oneLine [Examples.bootsRecord]
  ∧ length (split newline (saveClusters [Examples.bootsRecord])) = 2%nat.
Proof.
  assert (Forall oneLine [Examples.bootsRecord]) as Hone.
  { constructor; [|constructor]. unfold oneLine.
    apply (proj1 (Forall_forall (λ value, newline ∉ toString value)
                    (fieldValues Examples.bootsRecord))).
    by_compute. }
  split; [exact Hone|].
  exact (proj1 (saveClusters_read_back [Examples.bootsRecord] Hone)).
Defined.

(** ** Properties of a run *)

(** X18.  A run of [runClustering] that returns reports success and the
    two paths it was given; its clusters file is [saveClusters] of the
    records of [createClusterOutput], one per cluster, [clusters_created]
    is the number of clusters, and the numbers of multi-keyword and
    single-keyword clusters, which end the message, add up to it. *)
Theorem runClustering_summary (inputFile outputClusters outputOverlap : jsstring)
    (records : list Row) (run : Run) :
  runClustering inputFile outputClusters outputOverlap records = Some run →
  let serpData := loadSerpData records in
  let clusters := clusterKeywords serpData (calculateUrlOverlap serpData) 3 in
  ∃ clustersData multi single,
    Result.success (summary run) = true
    ∧ Result.output_clusters (summary run) = outputClusters
    ∧ Result.output_overlap (summary run) = outputOverlap
    ∧ createClusterOutput clusters serpData = Some clustersData
    ∧ clustersFile run = saveClusters clustersData
    ∧ overlapFile run = saveOverlapMatrix (calculateUrlOverlap serpData)
    ∧ Result.clusters_created (summary run) = length clusters
    ∧ length clustersData = length clusters
    ∧ multi = length (filter (λ c, (1 < Output.keyword_count c)%nat) clustersData)
    ∧ single = length (filter (λ c, Output.keyword_count c = 1%nat) clustersData)
    ∧ (multi + single)%nat = Result.clusters_created (summary run)
    ∧ (str "  Multi-keyword clusters: " ++ numberToString multi)
        ++ [newline]
        ++ (str "  Single-keyword clusters: " ++ numberToString single)
       `suffix_of` Result.message (summary run).
Proof.
  intros Hrun serpData clusters. unfold runClustering in Hrun.
  fold serpData in Hrun. fold clusters in Hrun.
  destruct (createClusterOutput clusters serpData) as [clustersData|] eqn:Hout;
    [|discriminate Hrun].
  apply (inj Some) in Hrun. subst run.
  pose proof (createClusterOutputFrom_Some _ _ _ _ Hout) as [Hlen _].
  exists clustersData,
    (length (filter (λ c, (1 < Output.keyword_count c)%nat) clustersData)),
    (length (filter (λ c, Output.keyword_count c = 1%nat) clustersData)).
  cbn [summary clustersFile overlapFile Result.success
    Result.output_clusters Result.output_overlap Result.clusters_created Result.message].
  split_and!; [done..| |].
  - rewrite <- Hlen. apply counts_add_up. by eapply pipeline_keyword_counts.
  - cbn [join]. do 24 apply suffix_app_r. reflexivity.
Qed.

Lemma runClustering_summary_witness :
  ∃ run,
    runClustering (str "in.csv") (str "clusters.csv") (str "overlap.csv")
      [ mkRow (str "shoes") (str "1") (str "https://a");
        mkRow (str "boots") (str "2") (str "https://a") ] = Some run
    ∧ Result.success (summary run) = true
    ∧ Result.clusters_created (summary run) = 2%nat.
Proof.
  destruct (runClustering (str "in.csv") (str "clusters.csv") (str "overlap.csv")
              [ mkRow (str "shoes") (str "1") (str "https://a");
                mkRow (str "boots") (str "2") (str "https://a") ]) as [run|] eqn:Hrun;
    [|vm_compute in Hrun; discriminate Hrun].
  exists run. split; [reflexivity|].
  destruct (runClustering_summary _ _ _ _ run Hrun)
    as (clustersData & multi & single & Hok & _ & _ & _ & _ & _ & Hcreated & _).
  split; [exact Hok|]. rewrite Hcreated. vm_compute. reflexivity.
Defined.

(** X19.  When no kept row has a [|] in its keyword, a run never reports
    more clusters than it loaded keywords. *)
Theorem runClustering_at_most_keywords (inputFile outputClusters outputOverlap : jsstring)
    (records : list Row) :
  (∀ row, row ∈ records → included row → "|"%char ∉ trim (keyword row)) →
  ∃ run,
    runClustering inputFile outputClusters outputOverlap records = Some run
    ∧ (Result.clusters_created (summary run) ≤ Map_size (loadSerpData records))%nat.
Proof.
  intros Hsep. unfold runClustering.
  destruct (pipeline_records (loadSerpData records) 3) as [clustersData Hout].
  rewrite Hout. eexists. split; [reflexivity|].
  cbn [summary Result.clusters_created].
  assert (Map_size (loadSerpData records) = length (Map_keys (loadSerpData records)))
    as -> by (unfold Map_size, Map_keys; by rewrite length_fmap).
  pose proof (clusterKeywords_count (loadSerpData records) 3
                (loadSerpData_NoDup records)) as Hcount.
  cbv zeta in Hcount. rewrite clusterKeywords_eq, length_app, length_fmap.
  assert (∀ kw, kw ∈ Map_keys (loadSerpData records) → "|"%char ∉ kw) as Hkeys.
  { intros kw (row & Hrow & Hinc & ->)%loadSerpData_keys. by apply Hsep. }
  specialize (Hcount Hkeys). lia.
Qed.

Lemma runClustering_at_most_keywords_witness :
  ∃ run,
    runClustering (str "in.csv") (str "clusters.csv") (str "overlap.csv")
      [ mkRow (str "shoes") (str "1") (str "https://a");
        mkRow (str "boots") (str "2") (str "https://a") ] = Some run
    ∧ (Result.clusters_created (summary run) ≤ 2)%nat.
Proof.
  refine (runClustering_at_most_keywords (str "in.csv") (str "clusters.csv")
            (str "overlap.csv")
            [ mkRow (str "shoes") (str "1") (str "https://a");
              mkRow (str "boots") (str "2") (str "https://a") ] _).
  intros row Hrow _. revert row Hrow.
  apply (proj1 (Forall_forall (λ row, "|"%char ∉ trim (keyword row)) _)). by_compute.
Defined.
